(** * run-doctr.py: the doctr supervisor

    A shallow embedding of [run_doctr] from
    [DocumentTranslation.Web/run-doctr.py]: the Python string operations the
    output filters are built from, the two noise filters, and the control flow
    of the supervisor over an explicit description of what the operating
    system and the child process do. *)

From Stdlib Require Import List String Ascii Bool ZArith Lia.
Import ListNotations.

(** ** Python [str] operations

    A Python [str] is a sequence of code points.  The model works on texts
    whose code points are below 256, one [ascii] per code point, so a [str]
    is a [list ascii]; [string] literals are converted with
    [list_ascii_of_string]. *)

Module PyStr.

Definition text := list ascii.

(** ['\n'], the separator of [str.split('\n')] and ['\n'.join]. *)
Definition nl : ascii := ascii_of_nat 10.

(** [str.isspace] on one code point below 256: TAB, LF, VT, FF, CR,
    the separators FS, GS, RS, US, SPACE, NEL and NO-BREAK SPACE. *)
Definition isspace (c : ascii) : bool :=
  let n := nat_of_ascii c in
  ((9 <=? n) && (n <=? 13)) || ((28 <=? n) && (n <=? 32))
  || (n =? 133) || (n =? 160).

(** [s.startswith(p)]. *)
Fixpoint startswith (p s : text) : bool :=
  match p, s with
  | [], _ => true
  | _ :: _, [] => false
  | a :: p', b :: s' => Ascii.eqb a b && startswith p' s'
  end.

(** [p in s] for strings: [p] occurs in [s] as a contiguous run. *)
Fixpoint contains (p s : text) : bool :=
  startswith p s ||
  match s with
  | [] => false
  | _ :: s' => contains p s'
  end.

(** [s.split('\n')]: always at least one piece, pieces hold no ['\n']. *)
Fixpoint split (s : text) : list text :=
  match s with
  | [] => [[]]
  | c :: r =>
      if Ascii.eqb c nl then [] :: split r
      else match split r with
           | l :: ls => (c :: l) :: ls
           | [] => [[c]]
           end
  end.

(** ['\n'.join(ls)]. *)
Fixpoint join (ls : list text) : text :=
  match ls with
  | [] => []
  | [l] => l
  | l :: ls' => l ++ nl :: join ls'
  end.

(** [s.lstrip()], [s.rstrip()] and [s.strip()] with no argument. *)
Fixpoint lstrip (s : text) : text :=
  match s with
  | [] => []
  | c :: r => if isspace c then lstrip r else s
  end.

Fixpoint rstrip (s : text) : text :=
  match s with
  | [] => []
  | c :: r =>
      match rstrip r with
      | [] => if isspace c then [] else [c]
      | r' => c :: r'
      end
  end.

Definition strip (s : text) : text := rstrip (lstrip s).

(** Truth value of a [str]: non-empty. *)
Definition truthy (s : text) : bool :=
  match s with [] => false | _ :: _ => true end.

(** [any(phrase in line for phrase in phrases)]. *)
Definition any_phrase_in (phrases : list text) (line : text) : bool :=
  existsb (fun phrase => contains phrase line) phrases.

(** Specification-side notions the boolean tests are compared with. *)
Definition occurs_in (p s : text) : Prop := exists a b, s = a ++ p ++ b.

Definition blank (l : text) : Prop := Forall (fun c => isspace c = true) l.

(** [o] is [u] without its leading and trailing whitespace. *)
Definition trimmed_from (u o : text) : Prop :=
  (exists a b, u = a ++ o ++ b /\ blank a /\ blank b) /\
  (forall c r, o = c :: r -> isspace c = false) /\
  (forall r c, o = r ++ [c] -> isspace c = false).

Inductive subseq {A : Type} : list A -> list A -> Prop :=
| subseq_nil : subseq [] []
| subseq_skip x l m : subseq l m -> subseq l (x :: m)
| subseq_keep x l m : subseq l m -> subseq (x :: l) (x :: m).

End PyStr.

(** ** The output filters (lines 110-144 of the script) *)

Module Filters.
Import PyStr.

Definition py (s : string) : text := list_ascii_of_string s.

(** The phrase list of the stdout loop. *)
Definition stdout_phrases : list text :=
  map py [ "Press Esc to cancel"; "KeyAvailable" ]%string.

(** The phrase list of the stderr loop. *)
Definition stderr_phrases : list text :=
  map py [ "Console.KeyAvailable";
           "console input has been redirected";
           "Timer_Elapsed";
           "System.Threading";
           "Cannot see if a key has been pressed";
           "Try Console.In.Peek";
           "ThreadPoolWorkQueue";
           "PortableThreadPool";
           "Unhandled exception. System.InvalidOperationException" ]%string.

(** [for line in lines: if keep(line): filtered.append(line)], with the
    list being appended to as accumulator. *)
Fixpoint filter_loop (keep : text -> bool) (lines filtered : list text)
  : list text :=
  match lines with
  | [] => filtered
  | line :: rest =>
      filter_loop keep rest (if keep line then filtered ++ [line] else filtered)
  end.

(** Condition under which the stdout loop appends a line. *)
Definition stdout_keep (line : text) : bool :=
  negb (any_phrase_in stdout_phrases line).

(** Condition under which the stderr loop appends a line: the phrase test,
    then the nested [if line.strip()]. *)
Definition stderr_keep (line : text) : bool :=
  if negb (any_phrase_in stderr_phrases line)
  then truthy (strip line)
  else false.

Definition filtered_stdout (stdout : text) : list text :=
  filter_loop stdout_keep (split stdout) [].

Definition filtered_errors (stderr : text) : list text :=
  filter_loop stderr_keep (split stderr) [].

(** [filtered_output = '\n'.join(filtered_stdout).strip()]. *)
Definition filtered_output (stdout : text) : text :=
  strip (join (filtered_stdout stdout)).

(** [filtered_stderr = '\n'.join(filtered_errors).strip()]. *)
Definition filtered_stderr (stderr : text) : text :=
  strip (join (filtered_errors stderr)).

(** The two filters on [string], as the supervisor uses them. *)
Definition filter_stdout (stdout : string) : string :=
  string_of_list_ascii (filtered_output (py stdout)).

Definition filter_stderr (stderr : string) : string :=
  string_of_list_ascii (filtered_stderr (py stderr)).

(** A phrase that is non-empty and holds no newline, and the test for it. *)
Definition plain_phrase (p : text) : Prop := p <> [] /\ ~ In nl p.

Definition plain_phraseb (p : text) : bool :=
  truthy p && negb (existsb (Ascii.eqb nl) p).

(** A one-character string holding ['\n'], to build multi-line texts. *)
Definition LF : string := String nl EmptyString.

End Filters.

(** ** The supervisor [run_doctr] *)

Module Supervisor.
Import Filters.

Local Open Scope string_scope.
Local Open Scope Z_scope.
Local Open Scope list_scope.

(** What the file system holds at a path.  [Inaccessible] stands for a path
    whose inspection raises (a [PermissionError] of [stat], say). *)
Inductive fs_node :=
| Missing
| RegularFile
| Directory (entries : list string)
| Inaccessible.

Inductive signal := SIGTERM | SIGKILL.
Inductive descriptor := master_fd | slave_fd.
Inductive stream := to_stdout | to_stderr.

(** The observable steps of one invocation, in program order. *)
Inductive event :=
| EvOpenPty
| EvPopen (argv : list string)
| EvClose (fd : descriptor)
| EvThreadStart
| EvCommunicate (timeout : option Z)
| EvGetpgid
| EvKillpg (sig : signal)
| EvSleep (seconds : Z)
| EvPoll (is_none : bool)
| EvPrint (to : stream) (line : string).

Inductive exn :=
| TimeoutExpired
| Error (message : string).

(** [str(e)].  The text of [TimeoutExpired] is never printed: the inner
    handler always catches it. *)
Definition str_exn (e : exn) : string :=
  match e with
  | TimeoutExpired => "Command timed out after 600 seconds"
  | Error message => message
  end.

(** Outcome of [os.killpg(os.getpgid(process.pid), sig)]. *)
Inductive signalling :=
| Delivered
| GetpgidRaises (message : string)
| KillpgRaises (message : string).

(** What the child does.  [Exits]: [communicate(timeout=600)] returns the
    captured streams and the return code.  [Overruns]: it raises
    [TimeoutExpired]; the fields say how the escalation goes and what the
    final [communicate()] yields ([None]: it never returns). *)
Inductive child_behaviour :=
| Exits (stdout stderr : string) (returncode : Z)
| Overruns (term : signalling) (alive_after_grace : bool) (kill : signalling)
           (drained : option (string * string)).

(** Everything outside the script that one invocation depends on.  The
    child's environment ([env], lines 38-47) and what the heartbeat thread
    writes to the pty reach the supervisor only through what the child
    does, which [child] describes. *)
Record world := {
  cli_dir : string;          (* str(cli_dir), built from the script's place *)
  fs : string -> fs_node;
  openpty_error : option string;
  popen_error : option string;
  child : child_behaviour
}.

(** *** A monad for Python control flow

    A computation yields the events it performed and how it completed:
    normally with a value, by [return] from the function, by an exception,
    or not at all. *)
Inductive completion (A : Type) :=
| Normal (a : A)
| Returns (code : Z)
| Raises (e : exn)
| Blocks.
Arguments Normal {A} a.
Arguments Returns {A} code.
Arguments Raises {A} e.
Arguments Blocks {A}.

Definition M (A : Type) : Type := (list event * completion A)%type.

Definition ret {A} (a : A) : M A := ([], Normal a).
Definition emit (e : event) : M unit := ([e], Normal tt).
Definition return_ {A} (code : Z) : M A := ([], Returns code).
Definition raise {A} (e : exn) : M A := ([], Raises e).
Definition block {A} : M A := ([], Blocks).
Definition pass : M unit := ret tt.

Definition bind {A B} (m : M A) (k : A -> M B) : M B :=
  let (t1, c) := m in
  match c with
  | Normal a => let (t2, c2) := k a in (t1 ++ t2, c2)
  | Returns code => (t1, Returns code)
  | Raises e => (t1, Raises e)
  | Blocks => (t1, Blocks)
  end.

Notation "x <- m ;; k" := (bind m (fun x => k))
  (at level 61, m at next level, right associativity).
Notation "m ;; k" := (bind m (fun _ => k))
  (at level 61, right associativity).

(** [try: body except <catches>: handler]. *)
Definition try_except {A} (body : M A) (catches : exn -> bool)
    (handler : exn -> M A) : M A :=
  let (t1, c) := body in
  match c with
  | Raises e =>
      if catches e then let (t2, c2) := handler e in (t1 ++ t2, c2)
      else (t1, c)
  | _ => (t1, c)
  end.

(** [try: body finally: cleanup]: the cleanup runs however the body
    completed; if it completes normally the body's completion stands. *)
Definition try_finally {A} (body : M A) (cleanup : M unit) : M A :=
  let (t1, c) := body in
  match c with
  | Blocks => (t1, Blocks)
  | _ =>
      let (t2, c2) := cleanup in
      (t1 ++ t2,
       match c2 with
       | Normal _ => c
       | Returns code => Returns code
       | Raises e => Raises e
       | Blocks => Blocks
       end)
  end.

Definition any_exception (_ : exn) : bool := true.
Definition only_timeout (e : exn) : bool :=
  match e with TimeoutExpired => true | Error _ => false end.

(** *** Primitive operations *)

(** [Path(p).exists()]. *)
Definition path_exists (w : world) (p : string) : M bool :=
  match fs w p with
  | Missing => ret false
  | RegularFile | Directory _ => ret true
  | Inaccessible => raise (Error "Permission denied")
  end.

(** [list(Path(p).glob("*"))]: the entries of a directory, nothing for a
    path that is not one. *)
Definition glob_star (w : world) (p : string) : M (list string) :=
  match fs w p with
  | Directory entries => ret entries
  | Missing | RegularFile => ret []
  | Inaccessible => raise (Error "Permission denied")
  end.

Definition openpty (w : world) : M unit :=
  emit EvOpenPty ;;
  match openpty_error w with
  | Some message => raise (Error message)
  | None => pass
  end.

Definition popen (w : world) (argv : list string) : M unit :=
  emit (EvPopen argv) ;;
  match popen_error w with
  | Some message => raise (Error message)
  | None => pass
  end.

Definition os_close (fd : descriptor) : M unit := emit (EvClose fd).
Definition thread_start : M unit := emit EvThreadStart.
Definition sleep (seconds : Z) : M unit := emit (EvSleep seconds).
Definition print (to : stream) (line : string) : M unit :=
  emit (EvPrint to line).

(** [process.communicate(timeout=timeout)], with [process.returncode]. *)
Definition communicate (w : world) (timeout : Z)
  : M (string * string * Z) :=
  emit (EvCommunicate (Some timeout)) ;;
  match child w with
  | Exits stdout stderr returncode => ret (stdout, stderr, returncode)
  | Overruns _ _ _ _ => raise TimeoutExpired
  end.

(** The second [process.communicate()], without a timeout: it returns once
    the child is gone.  It is only called after a timeout, so the [Exits]
    case is never reached. *)
Definition communicate_drain (w : world) : M (string * string) :=
  emit (EvCommunicate None) ;;
  match child w with
  | Exits stdout stderr _ => ret (stdout, stderr)
  | Overruns _ _ _ (Some drained) => ret drained
  | Overruns _ _ _ None => block
  end.

(** How signalling goes; asked only of a child that overran. *)
Definition signalling_of (w : world) (sig : signal) : signalling :=
  match child w with
  | Exits _ _ _ => Delivered
  | Overruns term _ kill _ =>
      match sig with SIGTERM => term | SIGKILL => kill end
  end.

(** [os.killpg(os.getpgid(process.pid), sig)]: a signal to the group. *)
Definition killpg (w : world) (sig : signal) : M unit :=
  emit EvGetpgid ;;
  match signalling_of w sig with
  | GetpgidRaises message => raise (Error message)
  | KillpgRaises message => emit (EvKillpg sig) ;; raise (Error message)
  | Delivered => emit (EvKillpg sig)
  end.

(** [process.poll() is None] after the grace delay. *)
Definition poll_is_none (w : world) : M bool :=
  let alive :=
    match child w with
    | Exits _ _ _ => false
    | Overruns _ alive_after_grace _ _ => alive_after_grace
    end in
  emit (EvPoll alive) ;; ret alive.

(** [args[i]]; out of range raises [IndexError]. *)
Definition subscript (args : list string) (i : nat) : M string :=
  match nth_error args i with
  | Some a => ret a
  | None => raise (Error "list index out of range")
  end.

Definition nonempty {A} (l : list A) : bool :=
  match l with [] => false | _ :: _ => true end.

Definition str_truthy (s : string) : bool :=
  match s with EmptyString => false | String _ _ => true end.

Definition timeout_message : string :=
  "Error: Process timed out after 10 minutes".
Definition inferred_message : string :=
  "Translation completed successfully (console error ignored)".
Definition not_found_message (cli_path : string) : string :=
  ("Error: CLI executable not found at " ++ cli_path)%string.
Definition failure_message (e : exn) : string :=
  ("Error running doctr: " ++ str_exn e)%string.

(** *** [run_doctr(args)] *)

(** [cli_path = cli_dir / "doctr"]. *)
Definition cli_path (w : world) : string := (cli_dir w ++ "/doctr")%string.

(** Lines 91-98: the escalation inside the timeout handler. *)
Definition escalate (w : world) : M unit :=
  try_except
    (killpg w SIGTERM ;;
     sleep 2 ;;
     alive <- poll_is_none w ;;
     if alive : bool then killpg w SIGKILL else pass)
    any_exception (fun _ => pass).

(** Lines 88-107: the bounded wait, its timeout handler and the cleanup. *)
Definition wait_for_completion (w : world) : M (string * string * Z) :=
  let timeout := 600 in
  try_finally
    (try_except (communicate w timeout) only_timeout
       (fun _ =>
          escalate w ;;
          _ <- communicate_drain w ;;
          print to_stdout timeout_message ;;
          return_ 1))
    (try_except (os_close master_fd) any_exception (fun _ => pass)).

(** Lines 110-144: filter and print the two captured streams. *)
Definition output_results (stdout stderr : string) : M unit :=
  (if str_truthy stdout then
     let filtered_output := filter_stdout stdout in
     if str_truthy filtered_output then print to_stdout filtered_output
     else pass
   else pass) ;;
  (if str_truthy stderr then
     let filtered_stderr := filter_stderr stderr in
     if str_truthy filtered_stderr then print to_stderr filtered_stderr
     else pass
   else pass).

(** Lines 148-158: success inference from the output directory. *)
Definition infer_success (w : world) (args : list string) (returncode : Z)
  : M unit :=
  if negb (returncode =? 0) then
    if existsb (String.eqb "translate") args && (3 <=? List.length args)%nat then
      try_except
        (output_dir <- subscript args 2 ;;
         found <- path_exists w output_dir ;;
         if found : bool then
           entries <- glob_star w output_dir ;;
           if nonempty entries then
             print to_stdout inferred_message ;;
             return_ 0
           else pass
         else pass)
        any_exception (fun _ => pass)
    else pass
  else pass.

Definition run_doctr (w : world) (args : list string) : M Empty_set :=
  let cli_path := cli_path w in
  found <- path_exists w cli_path ;;
  if negb found then
    print to_stdout (not_found_message cli_path) ;;
    return_ 1
  else
    try_except
      (openpty w ;;
       popen w (cli_path :: args) ;;
       os_close slave_fd ;;
       thread_start ;;
       captured <- wait_for_completion w ;;
       let '(stdout, stderr, returncode) := captured in
       output_results stdout stderr ;;
       infer_success w args returncode ;;
       return_ returncode)
      any_exception
      (fun e =>
         print to_stderr (failure_message e) ;;
         return_ 1).

(** How a call of [run_doctr] ends for its caller. *)
Inductive outcome :=
| ExitCode (code : Z)
| Crashes (e : exn)
| Hangs.

Definition outcome_of (c : completion Empty_set) : outcome :=
  match c with
  | Normal a => match a with end
  | Returns code => ExitCode code
  | Raises e => Crashes e
  | Blocks => Hangs
  end.

Definition trace_of (w : world) (args : list string) : list event :=
  fst (run_doctr w args).

Definition result_of (w : world) (args : list string) : outcome :=
  outcome_of (snd (run_doctr w args)).

(** Lines printed on one stream, in order. *)
Definition printed (to : stream) (t : list event) : list string :=
  flat_map (fun e =>
    match e, to with
    | EvPrint to_stdout line, to_stdout => [line]
    | EvPrint to_stderr line, to_stderr => [line]
    | _, _ => []
    end) t.

(** *** Vocabulary for the statements *)

(** The executable is there, and the pty and the child can be created. *)
Definition executable_exists (w : world) : Prop :=
  fs w (cli_path w) = RegularFile \/
  exists entries, fs w (cli_path w) = Directory entries.

Definition starts_child (w : world) : Prop :=
  executable_exists w /\ openpty_error w = None /\ popen_error w = None.

(** The success-inference conditions: the keyword is among the arguments,
    there are at least three of them, and the third names an existing
    directory with at least one entry. *)
Definition success_inferable (w : world) (args : list string) : Prop :=
  In "translate" args /\ (3 <= List.length args)%nat /\
  exists output_dir entries,
    nth_error args 2 = Some output_dir /\
    fs w output_dir = Directory entries /\ entries <> [].

(** Events up to the start of the heartbeat thread. *)
Definition launch_events (w : world) (args : list string) : list event :=
  [EvOpenPty; EvPopen (cli_path w :: args); EvClose slave_fd; EvThreadStart].

(** A signalling step as it shows in the trace. *)
Definition signal_events (s : signalling) (sig : signal) : list event :=
  match s with
  | GetpgidRaises _ => [EvGetpgid]
  | KillpgRaises _ | Delivered => [EvGetpgid; EvKillpg sig]
  end.

(** The escalation the specification describes: SIGTERM to the group, the
    2-second grace delay, the liveness recheck, SIGKILL if still alive; cut
    short where a signalling step raises. *)
Definition escalation_events (term : signalling) (alive : bool)
    (kill : signalling) : list event :=
  match term with
  | Delivered =>
      signal_events term SIGTERM ++ [EvSleep 2; EvPoll alive] ++
      (if alive then signal_events kill SIGKILL else [])
  | _ => signal_events term SIGTERM
  end.

(** What follows the escalation: the drain, then the message and the
    cleanup if the drain returns. *)
Definition after_escalation (drained : option (string * string))
  : list event :=
  EvCommunicate None ::
  match drained with
  | Some _ => [EvPrint to_stdout timeout_message; EvClose master_fd]
  | None => []
  end.

(** In a trace, every SIGKILL comes right after a delivered SIGTERM, the
    grace delay and a recheck that found the child alive. *)
Definition kill_only_after_grace (t : list event) : Prop :=
  forall pre post,
    t = pre ++ EvKillpg SIGKILL :: post ->
    exists pre',
      pre = pre' ++ [EvKillpg SIGTERM; EvSleep 2; EvPoll true; EvGetpgid].

End Supervisor.

(** ** Concrete invocations *)

Module Scenarios.
Import Filters Supervisor.

Local Open Scope string_scope.
Local Open Scope Z_scope.
Local Open Scope list_scope.

Definition install_dir : string :=
  "/srv/web/../DocumentTranslation.CLI/bin/Debug/net8.0".

(** A disk holding the executable and [out] at the path [/out]. *)
Definition disk (out : fs_node) (p : string) : fs_node :=
  if String.eqb p "/srv/web/../DocumentTranslation.CLI/bin/Debug/net8.0/doctr"
  then RegularFile
  else if String.eqb p "/out" then out
  else Missing.

Definition scenario (out : fs_node) (c : child_behaviour) : world :=
  {| cli_dir := install_dir;
     fs := disk out;
     openpty_error := None;
     popen_error := None;
     child := c |}.

(** The same without the executable. *)
Definition not_installed (c : child_behaviour) : world :=
  {| cli_dir := install_dir;
     fs := fun _ => Missing;
     openpty_error := None;
     popen_error := None;
     child := c |}.

Definition translate_args : list string := ["translate"; "/in"; "/out"].

(** A child that writes nothing and exits with [rc]; a child that is still
    alive after SIGTERM and the grace delay, with nothing to drain. *)
Definition quiet_exit (rc : Z) : child_behaviour :=
  Exits EmptyString EmptyString rc.

Definition stuck_child : child_behaviour :=
  Overruns Delivered true Delivered (Some (EmptyString, EmptyString)).

(** Captured texts: two lines around an empty one; a tool line that
    mentions the polled property; a mix with a prompt and a blank line. *)
Definition blank_between : string := ("a" ++ LF ++ LF ++ "b")%string.

Definition probing_line : string := "Probing Console.KeyAvailable: fine".

Definition probing_output : string :=
  (probing_line ++ LF ++ "3 files done")%string.

Definition mixed_output : string :=
  ("a" ++ LF ++ "Press Esc to cancel" ++ LF ++ " " ++ LF ++ "b")%string.

End Scenarios.

(** ** The child's environment (lines 38-47 of the script) *)

Module Environment.

Local Open Scope string_scope.

(** A Python [dict] from [str] to [str]: the items in insertion order. *)
Definition dict := list (string * string).

(** [d.get(k)]. *)
Fixpoint dict_get (d : dict) (k : string) : option string :=
  match d with
  | [] => None
  | (k', v') :: r => if String.eqb k' k then Some v' else dict_get r k
  end.

(** [d[k] = v]: a key that is there keeps its place, a new one goes last. *)
Fixpoint dict_set (k v : string) (d : dict) : dict :=
  match d with
  | [] => [(k, v)]
  | (k', v') :: r =>
      if String.eqb k' k then (k, v) :: r else (k', v') :: dict_set k v r
  end.

(** [d.update(other)]: the items of [other] are set one after the other. *)
Definition dict_update (d other : dict) : dict :=
  fold_left (fun acc item => dict_set (fst item) (snd item) acc) other d.

(** The literal passed to [env.update]. *)
Definition overrides : dict :=
  [ ("DOTNET_CONSOLE", "false");
    ("CI", "true");
    ("TERM", "dumb");
    ("LANG", "C");
    ("LC_ALL", "C");
    ("DOTNET_CLI_TELEMETRY_OPTOUT", "1");
    ("DOTNET_SKIP_FIRST_TIME_EXPERIENCE", "1") ].

(** [env = os.environ.copy(); env.update({...})]. *)
Definition env (environ : dict) : dict := dict_update environ overrides.

Definition keys (d : dict) : list string := map fst d.

End Environment.

(** ** The heartbeat thread [send_empty_input] (lines 69-78) *)

Module Heartbeat.
Import PyStr.

Local Open Scope Z_scope.

(** What one turn of the loop meets: [process.poll()] reports the child
    gone, or the child is alive and the write to the pty succeeds or
    raises [OSError]. *)
Inductive observation :=
| ChildExited
| ChildAlive (write_ok : bool).

Inductive hb_event :=
| HbPoll (is_none : bool)
| HbSleep (seconds : Z)
| HbWrite (data : text) (ok : bool).

(** [Finished]: the thread function returned.  [StillRunning]: the
    observations ran out with the loop still going. *)
Inductive hb_status := Finished | StillRunning.

(** [while process.poll() is None: time.sleep(1); try: os.write(master_fd,
    b'\n') except (OSError, BrokenPipeError): break], over the observations
    the turns of the loop meet. *)
Fixpoint send_empty_input (schedule : list observation)
  : list hb_event * hb_status :=
  match schedule with
  | [] => ([], StillRunning)
  | ChildExited :: _ => ([HbPoll false], Finished)
  | ChildAlive false :: _ =>
      ([HbPoll true; HbSleep 1; HbWrite [nl] false], Finished)
  | ChildAlive true :: rest =>
      let (t, status) := send_empty_input rest in
      (HbPoll true :: HbSleep 1 :: HbWrite [nl] true :: t, status)
  end.

(** The data of the writes of a trace, in order. *)
Definition written (t : list hb_event) : list text :=
  flat_map (fun e => match e with HbWrite data _ => [data] | _ => [] end) t.

(** An observation that lets the loop go on. *)
Definition goes_on (o : observation) : bool :=
  match o with ChildAlive true => true | _ => false end.

(** The last step of a trace ends the loop: the poll found the child gone,
    or the write raised. *)
Definition ends_loop (e : hb_event) : bool :=
  match e with
  | HbPoll false | HbWrite _ false => true
  | _ => false
  end.

End Heartbeat.

(** ** The entry point (lines 166-169) and views of a trace *)

Module Entry.
Import Supervisor.

(** [exit_code = run_doctr(sys.argv[1:])], then [sys.exit(exit_code)]: the
    events of the run and the value handed to [sys.exit]. *)
Definition main (w : world) (argv : list string) : list event * outcome :=
  let args := tl argv in
  (trace_of w args, result_of w args).

(** The argument vectors of the processes a trace starts. *)
Definition spawned (t : list event) : list (list string) :=
  flat_map (fun e => match e with EvPopen argv => [argv] | _ => [] end) t.

(** The descriptors a trace closes, in order. *)
Definition closed (t : list event) : list descriptor :=
  flat_map (fun e => match e with EvClose fd => [fd] | _ => [] end) t.

Definition is_print (e : event) : bool :=
  match e with EvPrint _ _ => true | _ => false end.

(** What a stream shows for a filtered text: one line, or nothing when the
    text is empty. *)
Definition shown (filtered : string) : list string :=
  if str_truthy filtered then [filtered] else [].

End Entry.

(** ** More concrete inputs *)

Module Samples.
Import Filters Supervisor Environment.

Local Open Scope string_scope.

(** The stack trace of the console failure, as the child writes it. *)
Definition console_trace : string :=
  "Unhandled exception. System.InvalidOperationException: Cannot see if a key has been pressed"
  ++ LF ++ "   at DocumentTranslation.CLI.Program.Timer_Elapsed(Object sender)"
  ++ LF ++ "   at System.Threading.TimerQueueTimer.Fire()"
  ++ LF.

(** An inherited environment. *)
Definition login_environ : dict :=
  [("TERM", "xterm"); ("HOME", "/root")].

(** A world in which the pty cannot be opened, one in which the child
    cannot be created, and one whose executable cannot be inspected. *)
Definition no_pty (message : string) : world :=
  {| cli_dir := Scenarios.install_dir;
     fs := Scenarios.disk Missing;
     openpty_error := Some message;
     popen_error := None;
     child := Scenarios.quiet_exit 0 |}.

Definition no_child (message : string) : world :=
  {| cli_dir := Scenarios.install_dir;
     fs := Scenarios.disk Missing;
     openpty_error := None;
     popen_error := Some message;
     child := Scenarios.quiet_exit 0 |}.


End Samples.

(** ** Facts about the string operations *)

Module PyStrFacts.
Import PyStr.

Lemma isspace_nl : isspace nl = true.
Proof. reflexivity. Qed.

Lemma eqb_nl_true c : Ascii.eqb c nl = true -> c = nl.
Proof. apply Ascii.eqb_eq. Qed.

Lemma eqb_nl_false c : Ascii.eqb c nl = false -> c <> nl.
Proof. apply Ascii.eqb_neq. Qed.

(** *** [split] and [join] *)

Lemma split_not_nil s : split s <> [].
Proof.
  destruct s as [|c r]; cbn [split]; [discriminate|].
  destruct (Ascii.eqb c nl); [discriminate|].
  destruct (split r); discriminate.
Qed.

Lemma split_cons_nl r : split (nl :: r) = [] :: split r.
Proof. cbn [split]. now rewrite Ascii.eqb_refl. Qed.

Lemma split_cons_other c r :
  c <> nl ->
  exists l ls, split r = l :: ls /\ split (c :: r) = (c :: l) :: ls.
Proof.
  intros Hc. cbn [split].
  apply Ascii.eqb_neq in Hc. rewrite Hc.
  destruct (split r) as [|l ls] eqn:E.
  - now apply split_not_nil in E.
  - now exists l, ls.
Qed.

Lemma join_cons l ls :
  ls <> [] -> join (l :: ls) = l ++ nl :: join ls.
Proof. destruct ls; [congruence | reflexivity]. Qed.

(** Joining the pieces of a split gives the text back. *)
Lemma join_split s : join (split s) = s.
Proof.
  induction s as [|c r IH]; [reflexivity|].
  destruct (Ascii.eqb c nl) eqn:E.
  - apply eqb_nl_true in E. subst c.
    rewrite split_cons_nl, join_cons by apply split_not_nil.
    rewrite app_nil_l. now rewrite IH.
  - apply eqb_nl_false in E.
    destruct (split_cons_other c r E) as (l & ls & Hr & Hc).
    rewrite Hc. rewrite Hr in IH.
    destruct ls as [|l' ls'].
    + cbn [join] in *. now subst.
    + rewrite join_cons in IH by discriminate.
      rewrite join_cons by discriminate.
      rewrite <- app_comm_cons. now rewrite IH.
Qed.

(** The pieces of a split hold no newline. *)
Lemma split_no_nl s : Forall (fun l => ~ In nl l) (split s).
Proof.
  induction s as [|c r IH]; cbn [split].
  - constructor; [intros [] | constructor].
  - destruct (Ascii.eqb c nl) eqn:E.
    + constructor; [intros [] | exact IH].
    + apply eqb_nl_false in E.
      destruct (split r) as [|l ls].
      * constructor; [|constructor].
        intros [H|[]]. now apply E.
      * inversion IH; subst.
        constructor; [|assumption].
        intros [H|H]; [now apply E | contradiction].
Qed.

Lemma split_app_no_nl p b :
  ~ In nl p ->
  exists l ls, split b = l :: ls /\ split (p ++ b) = (p ++ l) :: ls.
Proof.
  induction p as [|c p IH]; intros Hp.
  - destruct (split b) as [|l ls] eqn:E; [now apply split_not_nil in E|].
    now exists l, ls.
  - destruct IH as (l & ls & Hb & Hpb).
    { intros H. apply Hp. now right. }
    assert (Hc : c <> nl) by (intros ->; apply Hp; now left).
    destruct (split_cons_other c (p ++ b) Hc) as (l' & ls' & H1 & H2).
    rewrite Hpb in H1. injection H1 as <- <-.
    exists l, ls. split; [assumption|]. exact H2.
Qed.

Lemma split_single l : ~ In nl l -> split l = [l].
Proof.
  intros H. destruct (split_app_no_nl l [] H) as (l' & ls & Hb & Hs).
  simpl in Hb. injection Hb as <- <-.
  now rewrite !app_nil_r in Hs.
Qed.

(** Splitting a join of newline-free lines gives the lines back. *)
Lemma split_join ls :
  ls <> [] -> Forall (fun l => ~ In nl l) ls -> split (join ls) = ls.
Proof.
  induction ls as [|l ls IH]; intros Hne Hall; [congruence|].
  inversion Hall as [|? ? Hl Hls]; subst.
  destruct ls as [|l2 ls2].
  - simpl. now apply split_single.
  - rewrite join_cons by discriminate.
    destruct (split_app_no_nl l (nl :: join (l2 :: ls2)) Hl)
      as (l' & ls' & Hb & Hs).
    rewrite split_cons_nl, IH in Hb by (assumption || discriminate).
    injection Hb as <- <-.
    rewrite Hs. now rewrite app_nil_r.
Qed.

(** *** Occurrence of a phrase *)

Lemma startswith_spec p s :
  startswith p s = true <-> exists b, s = p ++ b.
Proof.
  revert s. induction p as [|a p IH]; intros s; cbn [startswith].
  - split; [intros _; now exists s | reflexivity].
  - destruct s as [|b s].
    + split; [discriminate | intros [x Hx]; discriminate].
    + rewrite andb_true_iff, Ascii.eqb_eq, IH. split.
      * intros [-> [x ->]]. now exists x.
      * intros [x Hx]. injection Hx as -> ->. split; [reflexivity | now exists x].
Qed.

(** The test [p in s] decides occurrence as a contiguous run. *)
Lemma contains_spec p s : contains p s = true <-> occurs_in p s.
Proof.
  induction s as [|c s IH]; cbn [contains]; rewrite orb_true_iff, startswith_spec.
  - split.
    + intros [[b Hb]|H]; [|discriminate]. now exists [], b.
    + intros (a & b & H). left.
      destruct a; [now exists b|discriminate].
  - rewrite IH. split.
    + intros [[b Hb]|(a & b & H)].
      * now exists [], b.
      * exists (c :: a), b. now rewrite H.
    + intros (a & b & H). destruct a as [|c' a].
      * left. now exists b.
      * right. injection H as -> ->. now exists a, b.
Qed.

Lemma contains_false p s : contains p s = false <-> ~ occurs_in p s.
Proof.
  rewrite <- contains_spec. now destruct (contains p s).
Qed.

Lemma occurs_in_trans p s t : occurs_in p s -> occurs_in s t -> occurs_in p t.
Proof.
  intros (a & b & ->) (a' & b' & ->).
  exists (a' ++ a), (b ++ b'). now rewrite <- !app_assoc.
Qed.

Lemma occurs_in_nil p : occurs_in p [] -> p = [].
Proof.
  intros (a & b & H). symmetry in H.
  apply app_eq_nil in H as [_ H]. now apply app_eq_nil in H as [H _].
Qed.

(** Every line of a join occurs in it; so does every piece of a split. *)
Lemma in_join_occurs l ls : In l ls -> occurs_in l (join ls).
Proof.
  induction ls as [|l0 ls IH]; intros H; [contradiction|].
  destruct ls as [|l1 ls].
  - destruct H as [<-|[]]. exists [], []. now rewrite app_nil_r.
  - rewrite join_cons by discriminate.
    destruct H as [<-|H].
    + now exists [], (nl :: join (l1 :: ls)).
    + destruct (IH H) as (a & b & ->).
      exists (l0 ++ nl :: a), b. now rewrite <- app_assoc.
Qed.

Lemma split_occurs s l : In l (split s) -> occurs_in l s.
Proof.
  intros H. rewrite <- (join_split s). now apply in_join_occurs.
Qed.

(** A newline-free phrase that occurs in a text occurs in one of its
    lines. *)
Lemma occurs_in_some_line p s :
  ~ In nl p -> occurs_in p s ->
  exists l, In l (split s) /\ occurs_in p l.
Proof.
  intros Hp (a & b & ->).
  induction a as [|c a IH].
  - destruct (split_app_no_nl p b Hp) as (l & ls & _ & Hs).
    exists (p ++ l). split; [rewrite app_nil_l, Hs; now left|].
    now exists [], l.
  - destruct IH as (l & Hl & Hocc).
    destruct (Ascii.eqb c nl) eqn:E.
    + apply eqb_nl_true in E. subst c.
      exists l. split; [|assumption].
      rewrite <- app_comm_cons, split_cons_nl. now right.
    + apply eqb_nl_false in E.
      destruct (split_cons_other c (a ++ p ++ b) E) as (l0 & ls & Hr & Hc).
      rewrite <- app_comm_cons, Hc. rewrite Hr in Hl.
      destruct Hl as [<-|Hl].
      * exists (c :: l0). split; [now left|].
        destruct Hocc as (x & y & ->). now exists (c :: x), y.
      * exists l. split; [now right | assumption].
Qed.

(** A non-empty newline-free phrase that occurs in a join of newline-free
    lines occurs in one of them. *)
Lemma occurs_in_join p ls :
  p <> [] -> ~ In nl p -> Forall (fun l => ~ In nl l) ls ->
  occurs_in p (join ls) -> exists l, In l ls /\ occurs_in p l.
Proof.
  intros Hne Hp Hls Hocc.
  destruct ls as [|l0 ls].
  - cbn [join] in Hocc. apply occurs_in_nil in Hocc. contradiction.
  - destruct (occurs_in_some_line p _ Hp Hocc) as (l & Hl & Hpl).
    rewrite split_join in Hl by (assumption || discriminate).
    now exists l.
Qed.

(** *** [lstrip], [rstrip], [strip] *)

Lemma lstrip_decomp s :
  exists a, s = a ++ lstrip s /\ blank a.
Proof.
  induction s as [|c r (a & Hr & Ha)]; cbn [lstrip].
  - exists []. split; [reflexivity | constructor].
  - destruct (isspace c) eqn:E.
    + exists (c :: a). split; [now rewrite <- app_comm_cons, <- Hr|].
      now constructor.
    + exists []. split; [reflexivity | constructor].
Qed.

Lemma lstrip_head s c r : lstrip s = c :: r -> isspace c = false.
Proof.
  induction s as [|x s IH]; cbn [lstrip]; [discriminate|].
  destruct (isspace x) eqn:E; [exact IH|].
  intros H. injection H as <- _. exact E.
Qed.

Lemma lstrip_fixed c r : isspace c = false -> lstrip (c :: r) = c :: r.
Proof. intros H. cbn [lstrip]. now rewrite H. Qed.

Lemma lstrip_nil s : lstrip s = [] <-> blank s.
Proof.
  induction s as [|c r IH]; cbn [lstrip].
  - split; [constructor | reflexivity].
  - destruct (isspace c) eqn:E.
    + rewrite IH. split; [now constructor | now inversion 1].
    + split; [discriminate|]. inversion 1; congruence.
Qed.

Lemma rstrip_nil s : rstrip s = [] <-> blank s.
Proof.
  induction s as [|c r IH]; cbn [rstrip].
  - split; [constructor | reflexivity].
  - destruct (rstrip r) as [|x r'] eqn:Er.
    + destruct (isspace c) eqn:E.
      * split; [intros _; constructor; [assumption | now apply IH] | reflexivity].
      * split; [discriminate | inversion 1; congruence].
    + split; [discriminate|].
      inversion 1 as [|? ? _ Hr]. apply IH in Hr. discriminate.
Qed.

Lemma rstrip_decomp s :
  exists b, s = rstrip s ++ b /\ blank b.
Proof.
  induction s as [|c r (b & Hr & Hb)]; cbn [rstrip].
  - exists []. split; [reflexivity | constructor].
  - destruct (rstrip r) as [|x r'] eqn:Er.
    + destruct (isspace c) eqn:E.
      * exists (c :: r). split; [reflexivity|].
        constructor; [assumption | now apply rstrip_nil].
      * exists b. split; [now rewrite Hr at 1 | assumption].
    + exists b. split; [now rewrite Hr at 1 | assumption].
Qed.

(** A text starting with a non-space character keeps it under [rstrip]. *)
Lemma rstrip_cons_nonspace c r :
  isspace c = false -> rstrip (c :: r) = c :: rstrip r.
Proof.
  intros H. cbn [rstrip]. destruct (rstrip r); [now rewrite H | reflexivity].
Qed.

Lemma rstrip_cons_keep c r :
  rstrip r <> [] -> rstrip (c :: r) = c :: rstrip r.
Proof.
  intros H. cbn [rstrip]. destruct (rstrip r); [congruence | reflexivity].
Qed.

Lemma rstrip_idem s : rstrip (rstrip s) = rstrip s.
Proof.
  induction s as [|c r IH]; [reflexivity|].
  cbn [rstrip]. destruct (rstrip r) as [|x r'] eqn:Er.
  - destruct (isspace c) eqn:E; [reflexivity|].
    cbn [rstrip]. now rewrite E.
  - rewrite rstrip_cons_keep; [now rewrite IH|].
    rewrite IH. discriminate.
Qed.

Lemma rstrip_last s r c : rstrip s = r ++ [c] -> isspace c = false.
Proof.
  revert r. induction s as [|x s IH]; intros r; cbn [rstrip].
  - destruct r; discriminate.
  - destruct (rstrip s) as [|y s'] eqn:Es.
    + destruct (isspace x) eqn:E.
      * destruct r; discriminate.
      * destruct r as [|z r]; [now injection 1 as <-|].
        destruct r; discriminate.
    + destruct r as [|z r]; [discriminate|].
      rewrite <- app_comm_cons. injection 1 as _ H. now apply (IH r).
Qed.

Lemma lstrip_app a b : ~ blank a -> lstrip (a ++ b) = lstrip a ++ b.
Proof.
  induction a as [|c a IH]; intros H.
  - exfalso. apply H. constructor.
  - rewrite <- app_comm_cons. cbn [lstrip].
    destruct (isspace c) eqn:E; [|reflexivity].
    apply IH. intros Ha. apply H. now constructor.
Qed.

Lemma rstrip_app a b : ~ blank b -> rstrip (a ++ b) = a ++ rstrip b.
Proof.
  intros Hb. induction a as [|c a IH]; [reflexivity|].
  rewrite <- !app_comm_cons, rstrip_cons_keep; [now rewrite IH|].
  rewrite IH. intros H. apply app_eq_nil in H as [_ H].
  now apply rstrip_nil in H.
Qed.

Lemma strip_decomp s :
  exists a b, s = a ++ strip s ++ b /\ blank a /\ blank b.
Proof.
  destruct (lstrip_decomp s) as (a & Hs & Ha).
  destruct (rstrip_decomp (lstrip s)) as (b & Hl & Hb).
  exists a, b. unfold strip. rewrite <- Hl. now split.
Qed.

Lemma strip_occurs s : occurs_in (strip s) s.
Proof. destruct (strip_decomp s) as (a & b & H & _). now exists a, b. Qed.

Lemma strip_head s c r : strip s = c :: r -> isspace c = false.
Proof.
  unfold strip. destruct (lstrip s) as [|x t] eqn:E; [discriminate|].
  pose proof (lstrip_head _ _ _ E) as Hx.
  rewrite rstrip_cons_nonspace by assumption.
  now injection 1 as <- _.
Qed.

Lemma strip_last s r c : strip s = r ++ [c] -> isspace c = false.
Proof. apply rstrip_last. Qed.

(** A text without leading or trailing whitespace is left alone. *)
Lemma strip_idem s : strip (strip s) = strip s.
Proof.
  unfold strip. destruct (lstrip s) as [|x t] eqn:E; [reflexivity|].
  pose proof (lstrip_head _ _ _ E) as Hx.
  rewrite rstrip_cons_nonspace by assumption.
  rewrite lstrip_fixed by assumption.
  rewrite <- (rstrip_cons_nonspace x t Hx). apply rstrip_idem.
Qed.

Lemma strip_nil s : strip s = [] <-> blank s.
Proof.
  unfold strip. rewrite rstrip_nil. split.
  - intros H. destruct (lstrip_decomp s) as (a & Hs & Ha).
    rewrite Hs. apply Forall_app. now split.
  - intros H. destruct (lstrip s) eqn:E; [constructor|].
    apply lstrip_nil in H. congruence.
Qed.

(** [if line.strip()] holds exactly for the lines that are not blank. *)
Lemma truthy_strip l : truthy (strip l) = true <-> ~ blank l.
Proof.
  rewrite <- strip_nil.
  destruct (strip l); cbn [truthy]; split; congruence.
Qed.

Lemma blank_app a b : blank (a ++ b) <-> blank a /\ blank b.
Proof. apply Forall_app. Qed.

(** *** Stripping a join of non-blank lines *)

Lemma lstrip_join l ls :
  ~ blank l -> lstrip (join (l :: ls)) = join (lstrip l :: ls).
Proof.
  intros H. destruct ls as [|l1 ls]; [reflexivity|].
  rewrite !join_cons by discriminate. now apply lstrip_app.
Qed.

Lemma rstrip_join ls :
  ls <> [] -> Forall (fun l => ~ blank l) ls ->
  exists ls', rstrip (join ls) = join ls' /\ ls' <> [] /\
              Forall (fun l => ~ blank l) ls' /\
              Forall (fun l' => exists l, In l ls /\ occurs_in l' l) ls'.
Proof.
  induction ls as [|l ls IH]; intros Hne Hall; [congruence|].
  inversion Hall as [|? ? Hl Hls]; subst.
  destruct ls as [|l1 ls].
  - exists [rstrip l]. cbn [join]. repeat split.
    + discriminate.
    + constructor; [|constructor]. now rewrite <- rstrip_nil, rstrip_idem, rstrip_nil.
    + constructor; [|constructor]. exists l. split; [now left|].
      destruct (rstrip_decomp l) as (b & H & _). now exists [], b.
  - destruct IH as (ls' & Hr & Hne' & Hnb & Hocc); [discriminate | assumption |].
    exists (l :: ls').
    rewrite (join_cons l ls' Hne'), (join_cons l (l1 :: ls)) by discriminate.
    assert (Hj : ~ blank (join (l1 :: ls))).
    { inversion Hls as [|? ? Hl1 _]; subst. intros Hj. apply Hl1.
      destruct ls as [|l2 ls]; [exact Hj|].
      rewrite join_cons in Hj by discriminate.
      now apply blank_app in Hj. }
    split; [|repeat split].
    + rewrite rstrip_app.
      * rewrite rstrip_cons_keep, Hr; [reflexivity|].
        now rewrite rstrip_nil.
      * intros H. inversion H as [|? ? _ H']. contradiction.
    + discriminate.
    + now constructor.
    + constructor.
      * exists l. split; [now left | now exists [], []; rewrite app_nil_r].
      * eapply Forall_impl; [|exact Hocc].
        intros a (x & Hx & Hax). exists x. split; [now right | assumption].
Qed.

End PyStrFacts.

(** ** Facts about the filters *)

Module FilterFacts.
Import PyStr PyStrFacts Filters.

Lemma filter_loop_acc keep lines acc :
  filter_loop keep lines acc = acc ++ filter keep lines.
Proof.
  revert acc. induction lines as [|l ls IH]; intros acc; cbn [filter_loop filter].
  - now rewrite app_nil_r.
  - rewrite IH. destruct (keep l); [now rewrite <- app_assoc | reflexivity].
Qed.

(** The loop is [filter]: it keeps exactly the lines that pass the test. *)
Lemma filter_loop_filter keep lines :
  filter_loop keep lines [] = filter keep lines.
Proof. apply filter_loop_acc. Qed.

Lemma filter_subseq {A} (f : A -> bool) l : subseq (filter f l) l.
Proof.
  induction l as [|x l IH]; cbn [filter]; [constructor|].
  destruct (f x); now constructor.
Qed.

Lemma filter_all {A} (f : A -> bool) l :
  Forall (fun x => f x = true) l -> filter f l = l.
Proof.
  induction 1 as [|x l Hx _ IH]; cbn [filter]; [reflexivity|].
  now rewrite Hx, IH.
Qed.

Lemma any_phrase_in_spec phrases line :
  any_phrase_in phrases line = true <->
  exists p, In p phrases /\ occurs_in p line.
Proof.
  unfold any_phrase_in. rewrite existsb_exists.
  split; intros (p & Hp & H); exists p; (split; [assumption|]);
    now apply contains_spec.
Qed.

Lemma any_phrase_in_false phrases line :
  any_phrase_in phrases line = false <->
  forall p, In p phrases -> ~ occurs_in p line.
Proof.
  split.
  - intros H p Hp Hocc.
    assert (any_phrase_in phrases line = true)
      by (apply any_phrase_in_spec; now exists p).
    congruence.
  - intros H. destruct (any_phrase_in phrases line) eqn:E; [|reflexivity].
    apply any_phrase_in_spec in E as (p & Hp & Hocc). now apply H in Hocc.
Qed.

Lemma plain_phraseb_spec p : plain_phraseb p = true -> plain_phrase p.
Proof.
  unfold plain_phraseb. rewrite andb_true_iff, negb_true_iff.
  intros [Hne Hnl]. split.
  - destruct p; [discriminate | discriminate].
  - intros Hin.
    assert (existsb (Ascii.eqb nl) p = true)
      by (apply existsb_exists; exists nl; split;
          [assumption | apply Ascii.eqb_refl]).
    congruence.
Qed.

Lemma stdout_phrases_plain : Forall plain_phrase stdout_phrases.
Proof.
  apply Forall_forall. intros p Hp. apply plain_phraseb_spec.
  revert p Hp. apply Forall_forall.
  repeat (constructor; [reflexivity|]). constructor.
Qed.

Lemma stderr_phrases_plain : Forall plain_phrase stderr_phrases.
Proof.
  apply Forall_forall. intros p Hp. apply plain_phraseb_spec.
  revert p Hp. apply Forall_forall.
  repeat (constructor; [reflexivity|]). constructor.
Qed.

Lemma no_nl_occurs l' l : occurs_in l' l -> ~ In nl l -> ~ In nl l'.
Proof.
  intros (a & b & ->) H Hin. apply H.
  apply in_or_app. right. apply in_or_app. now left.
Qed.

Section Refilter.

Variable phrases : list text.
Hypothesis phrases_plain : Forall plain_phrase phrases.

(** Joining phrase-free, newline-free lines and trimming the result
    leaves a text none of whose lines holds a phrase. *)
Lemma phrase_free_after_strip ls l :
  Forall (fun x => ~ In nl x) ls ->
  Forall (fun x => any_phrase_in phrases x = false) ls ->
  In l (split (strip (join ls))) ->
  any_phrase_in phrases l = false.
Proof.
  intros Hnl Hfree Hl. apply any_phrase_in_false. intros p Hp Hocc.
  destruct (proj1 (Forall_forall _ _) phrases_plain p Hp) as [Hne Hpnl].
  assert (Hu : occurs_in p (join ls)).
  { eapply occurs_in_trans; [exact Hocc|].
    apply occurs_in_trans with (s := strip (join ls));
      [apply split_occurs, Hl | apply strip_occurs]. }
  destruct (occurs_in_join p ls Hne Hpnl Hnl Hu) as (x & Hx & Hpx).
  pose proof (proj1 (Forall_forall _ _) Hfree x Hx) as Hfx.
  rewrite any_phrase_in_false in Hfx. now apply (Hfx p Hp).
Qed.

Lemma phrase_free_text ls :
  Forall (fun x => ~ In nl x) ls ->
  Forall (fun x => any_phrase_in phrases x = false) ls ->
  forall p, In p phrases -> ~ occurs_in p (strip (join ls)).
Proof.
  intros Hnl Hfree p Hp Hocc.
  destruct (proj1 (Forall_forall _ _) phrases_plain p Hp) as [Hne Hpnl].
  assert (Hu : occurs_in p (join ls))
    by (eapply occurs_in_trans; [exact Hocc | apply strip_occurs]).
  destruct (occurs_in_join p ls Hne Hpnl Hnl Hu) as (x & Hx & Hpx).
  pose proof (proj1 (Forall_forall _ _) Hfree x Hx) as Hfx.
  rewrite any_phrase_in_false in Hfx. now apply (Hfx p Hp).
Qed.

End Refilter.

(** A trimmed text all of whose lines pass the test is a fixed point. *)
Lemma refilter_fixed keep t :
  Forall (fun l => keep l = true) (split t) -> strip t = t ->
  strip (join (filter_loop keep (split t) [])) = t.
Proof.
  intros Hall Ht.
  now rewrite filter_loop_filter, filter_all, join_split.
Qed.

Lemma filtered_lines_no_nl keep s :
  Forall (fun x => ~ In nl x) (filter_loop keep (split s) []).
Proof.
  rewrite filter_loop_filter. apply Forall_forall. intros l Hl.
  apply filter_In in Hl as [Hl _].
  revert l Hl. apply Forall_forall, split_no_nl.
Qed.

Lemma filtered_stdout_free s :
  Forall (fun x => any_phrase_in stdout_phrases x = false) (filtered_stdout s).
Proof.
  unfold filtered_stdout. rewrite filter_loop_filter.
  apply Forall_forall. intros l Hl. apply filter_In in Hl as [_ Hl].
  unfold stdout_keep in Hl. now apply negb_true_iff in Hl.
Qed.

Lemma stderr_keep_spec l :
  stderr_keep l = true <->
  any_phrase_in stderr_phrases l = false /\ ~ blank l.
Proof.
  unfold stderr_keep. rewrite <- truthy_strip.
  destruct (any_phrase_in stderr_phrases l); cbn [negb]; split.
  - discriminate.
  - intros [? _]. discriminate.
  - now split.
  - now intros [_ ?].
Qed.

Lemma filtered_errors_kept s :
  Forall (fun x => any_phrase_in stderr_phrases x = false /\ ~ blank x)
         (filtered_errors s).
Proof.
  unfold filtered_errors. rewrite filter_loop_filter.
  apply Forall_forall. intros l Hl. apply filter_In in Hl as [_ Hl].
  now apply stderr_keep_spec.
Qed.

Lemma filtered_output_idem s :
  filtered_output (filtered_output s) = filtered_output s.
Proof.
  unfold filtered_output at 1. unfold filtered_stdout.
  apply refilter_fixed; [|apply strip_idem].
  apply Forall_forall. intros l Hl. unfold stdout_keep.
  apply negb_true_iff.
  eapply (phrase_free_after_strip _ stdout_phrases_plain (filtered_stdout s));
    [apply filtered_lines_no_nl | apply filtered_stdout_free | exact Hl].
Qed.

Lemma filtered_stderr_idem s :
  filtered_stderr (filtered_stderr s) = filtered_stderr s.
Proof.
  unfold filtered_stderr at 1. unfold filtered_errors at 1.
  pose proof (filtered_errors_kept s) as Hkept.
  pose proof (filtered_lines_no_nl stderr_keep s) as Hnl.
  fold (filtered_errors s) in Hnl.
  destruct (filtered_errors s) as [|l1 rest] eqn:E.
  - unfold filtered_stderr. rewrite E. reflexivity.
  - apply refilter_fixed; [|apply strip_idem].
    apply Forall_forall. intros l Hl. apply stderr_keep_spec. split.
    + unfold filtered_stderr in Hl. rewrite E in Hl.
      eapply (phrase_free_after_strip _ stderr_phrases_plain (l1 :: rest));
        [exact Hnl | | exact Hl].
      eapply Forall_impl; [|exact Hkept]. now intros a [? _].
    + assert (Hnb : Forall (fun x => ~ blank x) (l1 :: rest))
        by (eapply Forall_impl; [|exact Hkept]; now intros a [_ ?]).
      inversion Hnb as [|? ? Hl1 Hrest]; subst.
      unfold filtered_stderr in Hl. rewrite E in Hl. unfold strip in Hl.
      rewrite lstrip_join in Hl by assumption.
      destruct (rstrip_join (lstrip l1 :: rest)) as (ls' & Hr & Hne & Hnb' & Hocc).
      { discriminate. }
      { constructor; [|assumption]. intros Hb. apply Hl1.
        destruct (lstrip_decomp l1) as (pre & Hpre & Hblank).
        rewrite Hpre. apply blank_app. now split. }
      rewrite Hr in Hl. rewrite split_join in Hl; [| assumption |].
      * now apply (proj1 (Forall_forall _ _) Hnb' l).
      * eapply Forall_impl; [|exact Hocc].
        intros a (x & Hx & Hax). apply (no_nl_occurs a x Hax).
        inversion Hnl as [|? ? Hnl1 Hnlr]; subst.
        destruct Hx as [<-|Hx].
        -- destruct (lstrip_decomp l1) as (pre & Hpre & _).
           intros Hin. apply Hnl1. rewrite Hpre. apply in_or_app. now right.
        -- now apply (proj1 (Forall_forall _ _) Hnlr x).
Qed.

End FilterFacts.

(** ** Facts about the supervisor *)

Module SupervisorFacts.
Import Filters Supervisor.

Local Open Scope string_scope.
Local Open Scope Z_scope.
Local Open Scope list_scope.

Lemma keyword_test args :
  existsb (String.eqb "translate") args = true <-> In "translate" args.
Proof.
  rewrite existsb_exists. split.
  - intros (x & Hx & E). apply String.eqb_eq in E. now subst.
  - intros H. exists "translate". split; [assumption | apply String.eqb_refl].
Qed.

Lemma path_exists_found w p :
  fs w p = RegularFile \/ (exists entries, fs w p = Directory entries) ->
  path_exists w p = ret true.
Proof.
  unfold path_exists. intros [H|[entries H]]; now rewrite H.
Qed.

(** The stream output never fails and never returns from the function. *)
Lemma output_results_normal out err :
  snd (output_results out err) = Normal tt.
Proof.
  unfold output_results.
  destruct (str_truthy out), (str_truthy err);
    try destruct (str_truthy (filter_stdout out));
    try destruct (str_truthy (filter_stderr err)); reflexivity.
Qed.

(** Success inference, when its conditions hold. *)
Lemma infer_success_yes w args rc :
  rc <> 0 -> success_inferable w args ->
  infer_success w args rc = ([EvPrint to_stdout inferred_message], Returns 0).
Proof.
  intros Hrc (Hkey & Hlen & d & entries & Hd & Hfs & Hne).
  unfold infer_success.
  apply Z.eqb_neq in Hrc. rewrite Hrc. cbn [negb].
  apply keyword_test in Hkey. rewrite Hkey.
  apply Nat.leb_le in Hlen. rewrite Hlen. cbn [andb].
  unfold subscript, path_exists, glob_star. rewrite Hd. cbn. rewrite Hfs. cbn.
  destruct entries; [congruence | reflexivity].
Qed.

(** Success inference otherwise: nothing printed, nothing raised. *)
Lemma infer_success_no w args rc :
  rc = 0 \/ ~ success_inferable w args ->
  infer_success w args rc = ([], Normal tt).
Proof.
  intros H. unfold infer_success.
  destruct (rc =? 0) eqn:Hrc; cbn [negb]; [reflexivity|].
  destruct H as [H|H]; [apply Z.eqb_neq in Hrc; contradiction|].
  destruct (existsb (String.eqb "translate") args) eqn:Hkey;
    cbn [andb]; [|reflexivity].
  destruct (3 <=? List.length args)%nat eqn:Hlen; [|reflexivity].
  apply keyword_test in Hkey. apply Nat.leb_le in Hlen.
  unfold subscript, path_exists, glob_star.
  destruct (nth_error args 2) as [d|] eqn:Hd; [|reflexivity].
  cbn. destruct (fs w d) as [| |entries|] eqn:Hfs; cbn; try reflexivity.
  destruct entries as [|e entries]; [reflexivity|].
  exfalso. apply H. repeat split; try assumption.
  exists d, (e :: entries). split; [assumption|]. split; [assumption|].
  discriminate.
Qed.

(** The run of an invocation whose child exits within the ceiling. *)
Lemma run_doctr_exits w args out err rc :
  starts_child w -> child w = Exits out err rc ->
  run_doctr w args =
    (launch_events w args ++ [EvCommunicate (Some 600); EvClose master_fd]
       ++ fst (output_results out err) ++ fst (infer_success w args rc),
     match snd (infer_success w args rc) with
     | Returns code => Returns code
     | _ => Returns rc
     end).
Proof.
  intros (Hexe & Hpty & Hpopen) Hchild.
  unfold run_doctr. rewrite (path_exists_found _ _ Hexe).
  unfold openpty, popen, wait_for_completion, communicate.
  rewrite Hpty, Hpopen, Hchild.
  cbn -[output_results infer_success].
  pose proof (output_results_normal out err) as Hout.
  destruct (output_results out err) as [t1 c1]. cbn in Hout. subst c1.
  assert (Hinf : (exists t2, infer_success w args rc = (t2, Normal tt)) \/
                 (exists t2 code, infer_success w args rc = (t2, Returns code))).
  { destruct (Z.eq_dec rc 0) as [Hz|Hnz].
    - left. exists []. apply infer_success_no. now left.
    - unfold infer_success. apply Z.eqb_neq in Hnz. rewrite Hnz. cbn [negb].
      destruct (existsb (String.eqb "translate") args
                && (3 <=? List.length args)%nat); [|left; now exists []].
      unfold subscript, path_exists, glob_star.
      destruct (nth_error args 2) as [d|]; cbn; [|left; now exists []].
      destruct (fs w d) as [| |entries|]; cbn; try (left; now exists []).
      destruct entries; cbn; [left; now exists []|].
      right. now exists [EvPrint to_stdout inferred_message], 0. }
  destruct Hinf as [[t2 E]|(t2 & code & E)]; rewrite E; cbn;
    now rewrite ?app_nil_r.
Qed.

(** The escalation performs the steps of [escalation_events] and swallows
    whatever a signalling step raises. *)
Lemma escalate_run w term alive kill drained :
  child w = Overruns term alive kill drained ->
  escalate w = (escalation_events term alive kill, Normal tt).
Proof.
  intros Hchild. unfold escalate, killpg, poll_is_none, signalling_of.
  rewrite Hchild.
  destruct term; [destruct alive; [destruct kill|]| |]; reflexivity.
Qed.

(** The run of an invocation whose child is still there at the ceiling. *)
Lemma run_doctr_overruns w args term alive kill drained :
  starts_child w -> child w = Overruns term alive kill drained ->
  run_doctr w args =
    (launch_events w args ++ [EvCommunicate (Some 600)]
       ++ escalation_events term alive kill ++ after_escalation drained,
     match drained with
     | Some _ => Returns 1
     | None => Blocks
     end).
Proof.
  intros (Hexe & Hpty & Hpopen) Hchild.
  unfold run_doctr. rewrite (path_exists_found _ _ Hexe).
  unfold openpty, popen, wait_for_completion, communicate, communicate_drain.
  rewrite Hpty, Hpopen, Hchild, (escalate_run w term alive kill drained Hchild).
  destruct drained as [[out err]|]; cbn -[escalation_events];
    now rewrite <- ?app_assoc.
Qed.

Lemma run_doctr_missing w args :
  fs w (cli_path w) = Missing ->
  run_doctr w args =
    ([EvPrint to_stdout (not_found_message (cli_path w))], Returns 1).
Proof.
  intros H. unfold run_doctr, path_exists. now rewrite H.
Qed.

Lemma run_doctr_setup_fails w args :
  executable_exists w ->
  openpty_error w <> None \/ popen_error w <> None ->
  snd (run_doctr w args) = Returns 1.
Proof.
  intros Hexe H. unfold run_doctr. rewrite (path_exists_found _ _ Hexe).
  unfold openpty, popen.
  destruct (openpty_error w) as [m|]; [reflexivity|].
  destruct (popen_error w) as [m|]; [reflexivity|].
  now destruct H.
Qed.

End SupervisorFacts.

(** ** The claims about the filters *)

Module FilterClaims.
Import PyStr PyStrFacts Filters FilterFacts Scenarios.

Local Open Scope string_scope.

Lemma py_filter_stdout s : py (filter_stdout s) = filtered_output (py s).
Proof. apply list_ascii_of_string_of_list_ascii. Qed.

Lemma py_filter_stderr s : py (filter_stderr s) = filtered_stderr (py s).
Proof. apply list_ascii_of_string_of_list_ascii. Qed.

Lemma strip_trimmed u : trimmed_from u (strip u).
Proof.
  split; [|split].
  - destruct (strip_decomp u) as (a & b & H). now exists a, b.
  - apply strip_head.
  - apply strip_last.
Qed.

Lemma stdout_keep_spec l :
  stdout_keep l = true <-> forall p, In p stdout_phrases -> ~ occurs_in p l.
Proof.
  unfold stdout_keep. rewrite negb_true_iff. apply any_phrase_in_false.
Qed.

(** C8.  Both filters are idempotent: filtering a text that is already the
    output of the stdout filter (of the stderr filter) changes nothing. *)
Theorem filters_idempotent (captured : string) :
  filter_stdout (filter_stdout captured) = filter_stdout captured /\
  filter_stderr (filter_stderr captured) = filter_stderr captured.
Proof.
  split.
  - unfold filter_stdout at 1. rewrite py_filter_stdout.
    now rewrite filtered_output_idem.
  - unfold filter_stderr at 1. rewrite py_filter_stderr.
    now rewrite filtered_stderr_idem.
Qed.

(** C10.  The stdout filter drops every line that holds 'KeyAvailable' or
    'Press Esc to cancel' anywhere, so neither phrase is left in the
    reported stdout, whatever else the line said. *)
Theorem stdout_drops_KeyAvailable_lines (stdout : string) (line : text) :
  occurs_in (py "KeyAvailable") line \/
  occurs_in (py "Press Esc to cancel") line ->
  ~ In line (filtered_stdout (py stdout)) /\
  ~ occurs_in (py "KeyAvailable") (py (filter_stdout stdout)) /\
  ~ occurs_in (py "Press Esc to cancel") (py (filter_stdout stdout)).
Proof.
  intros Hocc. split; [|split].
  - intros Hin.
    pose proof (proj1 (Forall_forall _ _) (filtered_stdout_free (py stdout))
                  line Hin) as Hfree.
    rewrite any_phrase_in_false in Hfree.
    destruct Hocc as [H|H]; revert H; apply Hfree; cbn; auto.
  - rewrite py_filter_stdout.
    apply (phrase_free_text _ stdout_phrases_plain);
      [apply filtered_lines_no_nl | apply filtered_stdout_free | cbn; auto].
  - rewrite py_filter_stdout.
    apply (phrase_free_text _ stdout_phrases_plain);
      [apply filtered_lines_no_nl | apply filtered_stdout_free | cbn; auto].
Qed.

Lemma stdout_drops_KeyAvailable_lines_witness :
  In (py probing_line) (split (py probing_output)) /\
  (occurs_in (py "KeyAvailable") (py probing_line) \/
   occurs_in (py "Press Esc to cancel") (py probing_line)) /\
  filter_stdout probing_output = "3 files done" /\
  ~ In (py probing_line) (filtered_stdout (py probing_output)) /\
  ~ occurs_in (py "KeyAvailable") (py (filter_stdout probing_output)) /\
  ~ occurs_in (py "Press Esc to cancel") (py (filter_stdout probing_output)).
Proof.
  assert (H : occurs_in (py "KeyAvailable") (py probing_line) \/
              occurs_in (py "Press Esc to cancel") (py probing_line)).
  { left. apply contains_spec. vm_compute. reflexivity. }
  split; [vm_compute; auto|].
  split; [exact H|].
  split; [vm_compute; reflexivity|].
  exact (stdout_drops_KeyAvailable_lines probing_output (py probing_line) H).
Defined.

(** C4, as the code has it.  For both streams the filter works line by
    line, keeps the order of the lines, tests each phrase as an exact
    (case-sensitive) substring, and trims the joined text at both ends.
    Whitespace-only lines are dropped from stderr alone; stdout keeps the
    lines that hold none of its phrases, blank or not. *)
Theorem filtering_line_based (captured : string) :
  let t := py captured in
  (filtered_stdout t = filter stdout_keep (split t) /\
   filtered_errors t = filter stderr_keep (split t)) /\
  (subseq (filtered_stdout t) (split t) /\
   subseq (filtered_errors t) (split t)) /\
  (forall line, stdout_keep line = true <->
                forall p, In p stdout_phrases -> ~ occurs_in p line) /\
  (forall line, stderr_keep line = true <->
                (forall p, In p stderr_phrases -> ~ occurs_in p line) /\
                ~ blank line) /\
  (filter_stdout "press esc to cancel" = "press esc to cancel" /\
   filter_stderr "system.threading" = "system.threading") /\
  Forall (fun line => ~ blank line) (filtered_errors t) /\
  trimmed_from (join (filtered_stdout t)) (py (filter_stdout captured)) /\
  trimmed_from (join (filtered_errors t)) (py (filter_stderr captured)).
Proof.
  cbv zeta. repeat split.
  - apply filter_loop_filter.
  - apply filter_loop_filter.
  - unfold filtered_stdout. rewrite filter_loop_filter. apply filter_subseq.
  - unfold filtered_errors. rewrite filter_loop_filter. apply filter_subseq.
  - now apply stdout_keep_spec.
  - now apply stdout_keep_spec.
  - now apply any_phrase_in_false, stderr_keep_spec.
  - now apply stderr_keep_spec.
  - intros [H1 H2]. apply stderr_keep_spec. split; [|assumption].
    now apply any_phrase_in_false.
  - eapply Forall_impl; [|apply filtered_errors_kept]. now intros a [_ ?].
  - destruct (strip_trimmed (join (filtered_stdout (py captured))))
      as [H _]. rewrite py_filter_stdout. exact H.
  - rewrite py_filter_stdout. apply strip_head.
  - rewrite py_filter_stdout. apply strip_last.
  - destruct (strip_trimmed (join (filtered_errors (py captured))))
      as [H _]. rewrite py_filter_stderr. exact H.
  - rewrite py_filter_stderr. apply strip_head.
  - rewrite py_filter_stderr. apply strip_last.
Qed.

Lemma filtering_line_based_witness :
  subseq (filtered_stdout (py mixed_output)) (split (py mixed_output)) /\
  subseq (filtered_errors (py mixed_output)) (split (py mixed_output)) /\
  Forall (fun line => ~ blank line) (filtered_errors (py mixed_output)).
Proof.
  pose proof (filtering_line_based mixed_output) as H.
  cbv zeta in H.
  destruct H as (_ & [H1 H2] & _ & _ & _ & H3 & _).
  exact (conj H1 (conj H2 H3)).
Defined.

(** C4 as stated fails on stdout: the blank line between two kept lines
    stays in the filtered stdout (stderr drops it). *)
Lemma stdout_keeps_blank_line :
  filter_stdout blank_between = blank_between /\
  In [] (split (py (filter_stdout blank_between))) /\
  blank [] /\
  filter_stderr blank_between = "a" ++ LF ++ "b".
Proof.
  split; [vm_compute; reflexivity|].
  split; [vm_compute; auto|].
  split; [constructor | vm_compute; reflexivity].
Qed.

End FilterClaims.

(** ** The claims about the supervisor *)

Module SupervisorClaims.
Import Filters Supervisor SupervisorFacts Scenarios.

Local Open Scope string_scope.
Local Open Scope Z_scope.
Local Open Scope list_scope.

Lemma scenario_starts_child out c : starts_child (scenario out c).
Proof. repeat split. left. reflexivity. Qed.

(** C1.  When the child exits with a non-zero code, the keyword is among
    at least three arguments, and the third names an existing directory
    with at least one entry, the supervisor returns 0, and the last thing
    it does is print the message that the console error was ignored. *)
Theorem inferred_success_overrides_failure
    (w : world) (args : list string) (out err : string) (rc : Z)
    (output_dir : string) (entries : list string) :
  starts_child w ->
  child w = Exits out err rc ->
  rc <> 0 ->
  In "translate" args ->
  (3 <= List.length args)%nat ->
  nth_error args 2 = Some output_dir ->
  fs w output_dir = Directory entries ->
  entries <> [] ->
  result_of w args = ExitCode 0 /\
  exists before,
    trace_of w args = before ++ [EvPrint to_stdout inferred_message].
Proof.
  intros Hstart Hchild Hrc Hkey Hlen Hdir Hfs Hne.
  assert (Hinf : success_inferable w args).
  { split; [assumption|]. split; [assumption|].
    exists output_dir, entries. now repeat split. }
  unfold result_of, trace_of.
  rewrite (run_doctr_exits w args out err rc Hstart Hchild).
  rewrite (infer_success_yes w args rc Hrc Hinf). cbn [fst snd outcome_of].
  split; [reflexivity|].
  exists (launch_events w args ++ [EvCommunicate (Some 600); EvClose master_fd]
          ++ fst (output_results out err)).
  now rewrite <- !app_assoc.
Qed.

Lemma inferred_success_overrides_failure_witness :
  result_of (scenario (Directory ["a.docx"]) (quiet_exit 1)) translate_args
    = ExitCode 0 /\
  exists before,
    trace_of (scenario (Directory ["a.docx"]) (quiet_exit 1)) translate_args
      = before ++ [EvPrint to_stdout inferred_message].
Proof.
  apply (inferred_success_overrides_failure
           (scenario (Directory ["a.docx"]) (quiet_exit 1)) translate_args
           EmptyString EmptyString 1 "/out" ["a.docx"]).
  - apply scenario_starts_child.
  - reflexivity.
  - lia.
  - simpl. auto.
  - simpl. lia.
  - reflexivity.
  - reflexivity.
  - discriminate.
Defined.

(** C2.  When the child exits with a non-zero code and the
    success-inference conditions are not all met, the supervisor returns the
    child's code unchanged. *)
Theorem nonzero_exit_propagated
    (w : world) (args : list string) (out err : string) (rc : Z) :
  starts_child w ->
  child w = Exits out err rc ->
  rc <> 0 ->
  ~ success_inferable w args ->
  result_of w args = ExitCode rc.
Proof.
  intros Hstart Hchild Hrc Hno.
  unfold result_of.
  rewrite (run_doctr_exits w args out err rc Hstart Hchild).
  rewrite (infer_success_no w args rc) by now right.
  reflexivity.
Qed.

Lemma nonzero_exit_propagated_witness :
  ~ success_inferable (scenario (Directory []) (quiet_exit 3)) translate_args /\
  result_of (scenario (Directory []) (quiet_exit 3)) translate_args
    = ExitCode 3.
Proof.
  assert (H : ~ success_inferable (scenario (Directory []) (quiet_exit 3))
                translate_args).
  { intros (_ & _ & d & entries & Hd & Hfs & Hne).
    injection Hd as <-. simpl in Hfs. injection Hfs as <-. now apply Hne. }
  split; [exact H|].
  apply (nonzero_exit_propagated
           (scenario (Directory []) (quiet_exit 3)) translate_args EmptyString EmptyString 3).
  - apply scenario_starts_child.
  - reflexivity.
  - lia.
  - exact H.
Defined.

(** C3, as the code has it.  The exit code is 0 when the child exits with
    0 or success is inferred; 1 when the executable is missing, when the pty
    or the child cannot be created, and on a timeout whose final drain
    returns; and the child's own non-zero code when the child fails and
    success cannot be inferred. *)
Theorem exit_code_table (w : world) (args : list string) :
  (fs w (cli_path w) = Missing -> result_of w args = ExitCode 1) /\
  (executable_exists w ->
   openpty_error w <> None \/ popen_error w <> None ->
   result_of w args = ExitCode 1) /\
  (starts_child w ->
   forall term alive kill drained,
     child w = Overruns term alive kill (Some drained) ->
     result_of w args = ExitCode 1) /\
  (starts_child w ->
   forall out err, child w = Exits out err 0 ->
   result_of w args = ExitCode 0) /\
  (starts_child w ->
   forall out err rc, child w = Exits out err rc -> rc <> 0 ->
   success_inferable w args ->
   result_of w args = ExitCode 0) /\
  (starts_child w ->
   forall out err rc, child w = Exits out err rc -> rc <> 0 ->
   ~ success_inferable w args ->
   result_of w args = ExitCode rc).
Proof.
  unfold result_of. repeat split.
  - intros H. now rewrite (run_doctr_missing w args H).
  - intros Hexe H. now rewrite (run_doctr_setup_fails w args Hexe H).
  - intros Hstart term alive kill drained Hchild.
    now rewrite (run_doctr_overruns w args _ _ _ _ Hstart Hchild).
  - intros Hstart out err Hchild.
    rewrite (run_doctr_exits w args out err 0 Hstart Hchild).
    rewrite (infer_success_no w args 0) by now left. reflexivity.
  - intros Hstart out err rc Hchild Hrc Hinf.
    rewrite (run_doctr_exits w args out err rc Hstart Hchild).
    now rewrite (infer_success_yes w args rc Hrc Hinf).
  - intros Hstart out err rc Hchild Hrc Hno.
    rewrite (run_doctr_exits w args out err rc Hstart Hchild).
    rewrite (infer_success_no w args rc) by now right. reflexivity.
Qed.

Lemma no_arguments_not_inferable w : ~ success_inferable w [].
Proof. intros ([] & _). Qed.

Lemma exit_code_table_witness :
  result_of (scenario Missing (quiet_exit 2)) [] = ExitCode 2 /\
  result_of (not_installed (quiet_exit 0)) [] = ExitCode 1.
Proof.
  split.
  - apply (proj2 (proj2 (proj2 (proj2 (proj2
             (exit_code_table (scenario Missing (quiet_exit 2)) []))))))
      with (out := EmptyString) (err := EmptyString).
    + apply scenario_starts_child.
    + reflexivity.
    + lia.
    + apply no_arguments_not_inferable.
  - apply (proj1 (exit_code_table (not_installed (quiet_exit 0)) [])).
    reflexivity.
Defined.

(** C3 as stated fails: a child that exits with 2, with nothing to infer
    success from, makes the supervisor return 2, not 1. *)
Lemma genuine_failure_returns_child_code :
  starts_child (scenario Missing (quiet_exit 2)) /\
  child (scenario Missing (quiet_exit 2)) = Exits EmptyString EmptyString 2 /\
  ~ success_inferable (scenario Missing (quiet_exit 2)) [] /\
  result_of (scenario Missing (quiet_exit 2)) [] = ExitCode 2 /\
  result_of (scenario Missing (quiet_exit 2)) [] <> ExitCode 1.
Proof.
  split; [apply scenario_starts_child|].
  split; [reflexivity|].
  split; [apply no_arguments_not_inferable|].
  split; [reflexivity | discriminate].
Qed.

(** C6.  When the resolved executable does not exist, the supervisor
    prints the not-found error and returns 1, and that is all it does: no
    pty is opened, no process is started, no thread either. *)
Theorem missing_executable_fails_first (w : world) (args : list string) :
  fs w (cli_path w) = Missing ->
  result_of w args = ExitCode 1 /\
  trace_of w args = [EvPrint to_stdout (not_found_message (cli_path w))] /\
  ~ In EvOpenPty (trace_of w args) /\
  (forall argv, ~ In (EvPopen argv) (trace_of w args)) /\
  ~ In EvThreadStart (trace_of w args).
Proof.
  intros H. unfold result_of, trace_of.
  rewrite (run_doctr_missing w args H). cbn [fst snd outcome_of].
  repeat split; try reflexivity.
  - intros [E|[]]. discriminate.
  - intros argv [E|[]]. discriminate.
  - intros [E|[]]. discriminate.
Qed.

Lemma missing_executable_fails_first_witness :
  fs (not_installed (quiet_exit 0)) (cli_path (not_installed (quiet_exit 0)))
    = Missing /\
  result_of (not_installed (quiet_exit 0)) translate_args = ExitCode 1 /\
  ~ In EvOpenPty (trace_of (not_installed (quiet_exit 0)) translate_args).
Proof.
  split; [reflexivity|].
  destruct (missing_executable_fails_first
              (not_installed (quiet_exit 0)) translate_args eq_refl)
    as (H1 & _ & H2 & _).
  exact (conj H1 H2).
Defined.

(** C9.  When inspecting the output location raises, the exception is
    swallowed: the supervisor prints nothing beyond the child's filtered
    streams and returns the child's non-zero code unchanged. *)
Theorem inspection_error_swallowed
    (w : world) (args : list string) (out err : string) (rc : Z)
    (output_dir : string) :
  starts_child w ->
  child w = Exits out err rc ->
  rc <> 0 ->
  nth_error args 2 = Some output_dir ->
  fs w output_dir = Inaccessible ->
  (exists e, snd (path_exists w output_dir) = Raises e) /\
  result_of w args = ExitCode rc /\
  trace_of w args =
    launch_events w args ++ [EvCommunicate (Some 600); EvClose master_fd]
      ++ fst (output_results out err).
Proof.
  intros Hstart Hchild Hrc Hdir Hfs.
  assert (Hno : ~ success_inferable w args).
  { intros (_ & _ & d & entries & Hd & Hfs' & _). congruence. }
  split.
  - unfold path_exists. rewrite Hfs. now eexists.
  - unfold result_of, trace_of.
    rewrite (run_doctr_exits w args out err rc Hstart Hchild).
    rewrite (infer_success_no w args rc) by now right.
    cbn [fst snd outcome_of]. now rewrite app_nil_r.
Qed.

Lemma inspection_error_swallowed_witness :
  fs (scenario Inaccessible (quiet_exit 1)) "/out" = Inaccessible /\
  result_of (scenario Inaccessible (quiet_exit 1)) translate_args
    = ExitCode 1.
Proof.
  split; [reflexivity|].
  destruct (inspection_error_swallowed
              (scenario Inaccessible (quiet_exit 1)) translate_args
              EmptyString EmptyString 1 "/out") as (_ & H & _).
  - apply scenario_starts_child.
  - reflexivity.
  - lia.
  - reflexivity.
  - reflexivity.
  - exact H.
Defined.

Lemma printed_app to t1 t2 :
  printed to (t1 ++ t2) = printed to t1 ++ printed to t2.
Proof. apply flat_map_app. Qed.

Lemma printed_escalation to term alive kill :
  printed to (escalation_events term alive kill) = [].
Proof.
  destruct to, term, alive, kill; reflexivity.
Qed.

(** C5, as the code has it.  On the timeout path the supervisor drains
    what the killed child had written but neither filters nor prints it:
    the process-timed-out message is its only output, and it returns 1. *)
Theorem timeout_discards_output
    (w : world) (args : list string) (term kill : signalling) (alive : bool)
    (out err : string) :
  starts_child w ->
  child w = Overruns term alive kill (Some (out, err)) ->
  result_of w args = ExitCode 1 /\
  In (EvCommunicate None) (trace_of w args) /\
  printed to_stdout (trace_of w args) = [timeout_message] /\
  printed to_stderr (trace_of w args) = [].
Proof.
  intros Hstart Hchild. unfold result_of, trace_of.
  rewrite (run_doctr_overruns w args _ _ _ _ Hstart Hchild).
  cbn [fst snd outcome_of]. split; [reflexivity|]. split; [|split].
  - apply in_or_app. right. apply in_or_app. right.
    apply in_or_app. right. now left.
  - now rewrite !printed_app, printed_escalation.
  - now rewrite !printed_app, printed_escalation.
Qed.

Lemma timeout_discards_output_witness :
  result_of
    (scenario Missing stuck_child)
    translate_args = ExitCode 1.
Proof.
  apply (timeout_discards_output
           (scenario Missing stuck_child)
           translate_args Delivered Delivered true
           EmptyString EmptyString).
  - apply scenario_starts_child.
  - reflexivity.
Defined.

(** C5 as stated fails: the child wrote a line to each stream before it
    was killed, both would pass the filters unchanged, and neither is
    printed. *)
Lemma timeout_output_not_emitted :
  child (scenario Missing
           (Overruns Delivered true Delivered
              (Some ("partial output", "partial error"))))
    = Overruns Delivered true Delivered
        (Some ("partial output", "partial error")) /\
  filter_stdout "partial output" = "partial output" /\
  filter_stderr "partial error" = "partial error" /\
  ~ In "partial output"
      (printed to_stdout
         (trace_of (scenario Missing
                      (Overruns Delivered true Delivered
                         (Some ("partial output", "partial error"))))
            translate_args)) /\
  ~ In "partial error"
      (printed to_stderr
         (trace_of (scenario Missing
                      (Overruns Delivered true Delivered
                         (Some ("partial output", "partial error"))))
            translate_args)).
Proof.
  split; [reflexivity|].
  split; [vm_compute; reflexivity|].
  split; [vm_compute; reflexivity|].
  split.
  - intros [H|[]]. discriminate.
  - intros [].
Qed.

(** Searching a trace written out for the SIGKILL event. *)
Ltac locate_kill H :=
  repeat
    match type of H with
    | _ :: _ = ?pre ++ _ :: _ =>
        destruct pre as [|? pre]; cbn [app] in H;
        [ try discriminate H | injection H as ? H; subst ]
    | [] = ?pre ++ _ :: _ => destruct pre; discriminate H
    end.

Lemma escalation_kill_only_after_grace w args term alive kill drained :
  kill_only_after_grace
    (launch_events w args ++ [EvCommunicate (Some 600)]
       ++ escalation_events term alive kill ++ after_escalation drained).
Proof.
  intros pre post H.
  unfold after_escalation in H.
  destruct term, alive, kill, drained; cbn in H; locate_kill H;
    exists (launch_events w args ++ [EvCommunicate (Some 600); EvGetpgid]);
    reflexivity.
Qed.

(** C7.  On a timeout the escalation runs in this order and no other:
    SIGTERM to the process group, the 2-second grace delay, the liveness
    recheck, then SIGKILL to the group only if the child was found alive.
    A SIGKILL never comes before the delay and the recheck. *)
Theorem escalation_strictly_ordered
    (w : world) (args : list string) (term kill : signalling) (alive : bool)
    (drained : option (string * string)) :
  starts_child w ->
  child w = Overruns term alive kill drained ->
  trace_of w args =
    launch_events w args ++ [EvCommunicate (Some 600)]
      ++ escalation_events term alive kill ++ after_escalation drained /\
  kill_only_after_grace (trace_of w args) /\
  (In (EvKillpg SIGKILL) (trace_of w args) ->
   term = Delivered /\ alive = true) /\
  (term = Delivered ->
   escalation_events term alive kill =
     [EvGetpgid; EvKillpg SIGTERM; EvSleep 2; EvPoll alive]
       ++ (if alive then signal_events kill SIGKILL else [])).
Proof.
  intros Hstart Hchild. unfold trace_of.
  rewrite (run_doctr_overruns w args _ _ _ _ Hstart Hchild). cbn [fst].
  split; [reflexivity|]. split; [|split].
  - apply escalation_kill_only_after_grace.
  - intros Hin. apply in_app_or in Hin as [Hin|Hin].
    { cbn in Hin. intuition discriminate. }
    apply in_app_or in Hin as [Hin|Hin].
    { cbn in Hin. intuition discriminate. }
    apply in_app_or in Hin as [Hin|Hin].
    + destruct term, alive; try (split; reflexivity);
        cbn in Hin; intuition discriminate.
    + destruct drained; cbn in Hin; intuition discriminate.
  - intros ->. reflexivity.
Qed.

Lemma escalation_strictly_ordered_witness :
  trace_of
    (scenario Missing stuck_child)
    translate_args
  = launch_events
      (scenario Missing stuck_child)
      translate_args
    ++ [EvCommunicate (Some 600);
        EvGetpgid; EvKillpg SIGTERM; EvSleep 2; EvPoll true;
        EvGetpgid; EvKillpg SIGKILL;
        EvCommunicate None; EvPrint to_stdout timeout_message;
        EvClose master_fd].
Proof.
  apply (escalation_strictly_ordered
           (scenario Missing stuck_child)
           translate_args Delivered Delivered true (Some (EmptyString, EmptyString))).
  - apply scenario_starts_child.
  - reflexivity.
Defined.

End SupervisorClaims.

(** ** The child's environment *)

Module EnvironmentFacts.
Import Environment.

Local Open Scope string_scope.
Local Open Scope list_scope.

Lemma get_set_same k v d : dict_get (dict_set k v d) k = Some v.
Proof.
  induction d as [|[k' v'] r IH]; cbn [dict_set dict_get].
  - now rewrite String.eqb_refl.
  - destruct (String.eqb k' k) eqn:E; cbn [dict_get].
    + now rewrite String.eqb_refl.
    + now rewrite E.
Qed.

Lemma get_set_other k v d k0 :
  k <> k0 -> dict_get (dict_set k v d) k0 = dict_get d k0.
Proof.
  intros Hne. induction d as [|[k' v'] r IH]; cbn [dict_set dict_get].
  - apply String.eqb_neq in Hne. now rewrite Hne.
  - destruct (String.eqb k' k) eqn:E; cbn [dict_get].
    + apply String.eqb_eq in E. subst k'.
      apply String.eqb_neq in Hne. now rewrite Hne.
    + now rewrite IH.
Qed.

(** Setting a key to the value it has changes nothing. *)
Lemma set_same_value k v d : dict_get d k = Some v -> dict_set k v d = d.
Proof.
  induction d as [|[k' v'] r IH]; cbn [dict_set dict_get]; [discriminate|].
  destruct (String.eqb k' k) eqn:E.
  - apply String.eqb_eq in E. subst k'. now intros [= ->].
  - intros H. now rewrite IH.
Qed.

Lemma keys_set k v d :
  keys (dict_set k v d) =
  if existsb (String.eqb k) (keys d) then keys d else keys d ++ [k].
Proof.
  unfold keys. induction d as [|[k' v'] r IH]; cbn; [reflexivity|].
  rewrite (String.eqb_sym k k').
  destruct (String.eqb k' k) eqn:E; cbn.
  - apply String.eqb_eq in E. now subst.
  - rewrite IH. now destruct (existsb (String.eqb k) (map fst r)).
Qed.

Lemma keys_member k l : existsb (String.eqb k) l = true <-> In k l.
Proof.
  rewrite existsb_exists. split.
  - intros (x & Hx & E). apply String.eqb_eq in E. now subst.
  - intros H. exists k. split; [assumption | apply String.eqb_refl].
Qed.

Lemma set_keeps_nodup k v d : NoDup (keys d) -> NoDup (keys (dict_set k v d)).
Proof.
  intros H. rewrite keys_set.
  destruct (existsb (String.eqb k) (keys d)) eqn:E; [assumption|].
  apply NoDup_app; [assumption | repeat constructor; intros [] |].
  intros x Hx [<-|[]].
  apply keys_member in Hx. congruence.
Qed.

Lemma get_update_other d other k :
  ~ In k (keys other) -> dict_get (dict_update d other) k = dict_get d k.
Proof.
  revert d. induction other as [|[k' v'] o IH]; intros d Hk; [reflexivity|].
  cbn [dict_update fold_left fst snd].
  change (dict_get (dict_update (dict_set k' v' d) o) k = dict_get d k).
  rewrite IH.
  - apply get_set_other. intros ->. apply Hk. now left.
  - intros H. apply Hk. now right.
Qed.

Lemma get_update_item d other k v :
  NoDup (keys other) -> In (k, v) other ->
  dict_get (dict_update d other) k = Some v.
Proof.
  revert d. induction other as [|[k' v'] o IH]; intros d Hnd Hin; [contradiction|].
  inversion Hnd as [|? ? Hk' Ho]; subst.
  change (dict_get (dict_update (dict_set k' v' d) o) k = Some v).
  destruct Hin as [[= -> ->]|Hin].
  - rewrite get_update_other by assumption. apply get_set_same.
  - now apply IH.
Qed.

Lemma update_fixed d other :
  (forall k v, In (k, v) other -> dict_get d k = Some v) ->
  dict_update d other = d.
Proof.
  induction other as [|[k v] o IH]; intros H; [reflexivity|].
  change (dict_update (dict_set k v d) o = d).
  rewrite set_same_value by (apply H; now left).
  apply IH. intros k0 v0 Hin. apply H. now right.
Qed.

Lemma update_keeps_nodup d other :
  NoDup (keys d) -> NoDup (keys (dict_update d other)).
Proof.
  revert d. induction other as [|[k v] o IH]; intros d H; [assumption|].
  change (NoDup (keys (dict_update (dict_set k v d) o))).
  now apply IH, set_keeps_nodup.
Qed.

Lemma overrides_keys_nodup : NoDup (keys overrides).
Proof.
  unfold keys, overrides. cbn [map fst].
  repeat (constructor; [cbn; intuition discriminate|]). constructor.
Qed.

(** X1.  Whatever the inherited environment holds, each of the seven
    variables of the literal has the literal's value in the child's
    environment. *)
Theorem env_override_wins (environ : dict) (k v : string) :
  In (k, v) overrides -> dict_get (env environ) k = Some v.
Proof.
  intros H. unfold env. apply get_update_item; [|assumption].
  apply overrides_keys_nodup.
Qed.

Lemma env_override_wins_witness :
  In ("TERM", "dumb") overrides /\
  dict_get (env [("TERM", "xterm"); ("HOME", "/root")]) "TERM" = Some "dumb".
Proof.
  assert (H : In ("TERM", "dumb") overrides) by (cbn; auto).
  split; [exact H|].
  exact (env_override_wins [("TERM", "xterm"); ("HOME", "/root")]
           "TERM" "dumb" H).
Defined.

(** X2.  Every variable other than those seven reaches the child as it was
    inherited: present with the same value, or absent. *)
Theorem env_inherits_rest (environ : dict) (k : string) :
  ~ In k (keys overrides) -> dict_get (env environ) k = dict_get environ k.
Proof.
  intros H. unfold env. now apply get_update_other.
Qed.

Lemma env_inherits_rest_witness :
  ~ In "HOME" (keys overrides) /\
  dict_get (env [("TERM", "xterm"); ("HOME", "/root")]) "HOME" = Some "/root".
Proof.
  assert (H : ~ In "HOME" (keys overrides))
    by (cbn; intuition discriminate).
  split; [exact H|].
  exact (env_inherits_rest [("TERM", "xterm"); ("HOME", "/root")] "HOME" H).
Defined.

(** X3.  Building the child's environment from an environment that was
    already built gives that environment back, item for item. *)
Theorem env_idempotent (environ : dict) : env (env environ) = env environ.
Proof.
  unfold env at 1. apply update_fixed.
  intros k v H. now apply env_override_wins.
Qed.

(** X4.  The update keeps the keys of the dictionary distinct, keeps every
    inherited key, and adds no key outside the literal. *)
Theorem env_keys (environ : dict) :
  NoDup (keys environ) ->
  NoDup (keys (env environ)) /\
  (forall k, In k (keys environ) -> In k (keys (env environ))) /\
  (forall k, In k (keys (env environ)) ->
             In k (keys environ) \/ In k (keys overrides)).
Proof.
  intros Hnd. split; [now apply update_keeps_nodup|].
  assert (Hstep : forall o d k,
            (In k (keys d) -> In k (keys (dict_update d o))) /\
            (In k (keys (dict_update d o)) -> In k (keys d) \/ In k (keys o))).
  { induction o as [|[k' v'] o IH]; intros d k.
    - split; [trivial | now left].
    - change (dict_update d ((k', v') :: o))
        with (dict_update (dict_set k' v' d) o).
      destruct (IH (dict_set k' v' d) k) as [IH1 IH2].
      rewrite keys_set in IH1, IH2.
      destruct (existsb (String.eqb k') (keys d)) eqn:E.
      + split; [exact IH1|].
        intros H. destruct (IH2 H) as [H'|H']; [now left | right; now right].
      + split.
        * intros H. apply IH1, in_or_app. now left.
        * intros H. destruct (IH2 H) as [H'|H']; [|right; now right].
          apply in_app_or in H' as [H'|[<-|[]]]; [now left|].
          right. now left. }
  split; intros k; now apply Hstep.
Qed.

Lemma env_keys_witness :
  NoDup (keys [("TERM", "xterm"); ("HOME", "/root")]) /\
  NoDup (keys (env [("TERM", "xterm"); ("HOME", "/root")])).
Proof.
  assert (H : NoDup (keys [("TERM", "xterm"); ("HOME", "/root")])).
  { cbn. repeat (constructor; [cbn; intuition discriminate|]). constructor. }
  split; [exact H|].
  exact (proj1 (env_keys [("TERM", "xterm"); ("HOME", "/root")] H)).
Defined.

End EnvironmentFacts.

(** ** The heartbeat thread *)

Module HeartbeatFacts.
Import PyStr Heartbeat.

Local Open Scope Z_scope.

Lemma send_turn rest :
  send_empty_input (ChildAlive true :: rest) =
  (HbPoll true :: HbSleep 1 :: HbWrite [nl] true
     :: fst (send_empty_input rest),
   snd (send_empty_input rest)).
Proof.
  cbn [send_empty_input]. now destruct (send_empty_input rest).
Qed.

(** X5.  Every write of the thread is the single byte ['\n'], and comes
    directly after a poll that found the child alive and a one-second
    sleep. *)
Theorem heartbeat_write_follows_poll
    (schedule : list observation) (pre post : list hb_event)
    (data : text) (ok : bool) :
  fst (send_empty_input schedule) = pre ++ HbWrite data ok :: post ->
  data = [nl] /\ exists pre', pre = pre' ++ [HbPoll true; HbSleep 1].
Proof.
  revert pre. induction schedule as [|o rest IH]; intros pre H.
  - destruct pre; discriminate.
  - destruct o as [|[|]].
    + cbn in H. destruct pre as [|? [|? ?]]; discriminate.
    + rewrite send_turn in H. cbn [fst] in H.
      destruct pre as [|e1 [|e2 [|e3 pre]]]; cbn [app] in H; try discriminate.
      * injection H as <- <- <- _. split; [reflexivity | now exists []].
      * injection H as <- <- <- H.
        destruct (IH pre H) as [Hd [pre' ->]].
        split; [assumption|].
        now exists (HbPoll true :: HbSleep 1 :: HbWrite [nl] true :: pre').
    + cbn in H.
      destruct pre as [|e1 [|e2 [|e3 pre]]]; cbn [app] in H; try discriminate.
      * injection H as <- <- <-. split; [reflexivity | now exists []].
      * injection H as _ _ _ H. destruct pre; discriminate.
Qed.

Lemma heartbeat_write_follows_poll_witness :
  fst (send_empty_input [ChildAlive true; ChildExited]) =
    [HbPoll true; HbSleep 1] ++ HbWrite [nl] true :: [HbPoll false] /\
  exists pre', [HbPoll true; HbSleep 1] = pre' ++ [HbPoll true; HbSleep 1].
Proof.
  split; [reflexivity|].
  exact (proj2 (heartbeat_write_follows_poll
                  [ChildAlive true; ChildExited]
                  [HbPoll true; HbSleep 1] [HbPoll false] [nl] true
                  eq_refl)).
Defined.

(** X6.  The loop ends at the first turn whose poll finds the child gone
    or whose write raises: the thread function returns, and it has written
    one newline for each turn before that one, plus the attempt that
    raised. *)
Theorem heartbeat_finishes
    (before after : list observation) (last : observation) :
  forallb goes_on before = true ->
  goes_on last = false ->
  snd (send_empty_input (before ++ last :: after)) = Finished /\
  written (fst (send_empty_input (before ++ last :: after))) =
    repeat [nl] (List.length before
                 + match last with ChildAlive _ => 1 | ChildExited => 0 end).
Proof.
  intros Hbefore Hlast. induction before as [|o before IH].
  - destruct last as [|[|]]; try discriminate; now split.
  - cbn [forallb] in Hbefore. apply andb_true_iff in Hbefore as [Ho Hb].
    destruct o as [|[|]]; try discriminate.
    destruct (IH Hb) as [IH1 IH2].
    rewrite <- app_comm_cons, send_turn. cbn [fst snd]. split; [exact IH1|].
    cbn [written flat_map app List.length Nat.add repeat].
    fold (written (fst (send_empty_input (before ++ last :: after)))).
    now rewrite IH2.
Qed.

Lemma heartbeat_finishes_witness :
  snd (send_empty_input ([ChildAlive true; ChildAlive true]
                         ++ ChildAlive false :: [ChildAlive true]))
    = Finished /\
  written (fst (send_empty_input ([ChildAlive true; ChildAlive true]
                                  ++ ChildAlive false :: [ChildAlive true])))
    = [[nl]; [nl]; [nl]].
Proof.
  exact (heartbeat_finishes [ChildAlive true; ChildAlive true]
           [ChildAlive true] (ChildAlive false) eq_refl eq_refl).
Defined.

(** X7.  Nothing follows the step that ends the loop: after a poll that
    found the child gone, or a write that raised, the thread neither polls
    nor sleeps nor writes again. *)
Theorem heartbeat_nothing_after_end
    (schedule : list observation) (pre post : list hb_event) (e : hb_event) :
  fst (send_empty_input schedule) = pre ++ e :: post ->
  ends_loop e = true ->
  post = [] /\ snd (send_empty_input schedule) = Finished.
Proof.
  revert pre. induction schedule as [|o rest IH]; intros pre H He.
  - destruct pre; discriminate.
  - destruct o as [|[|]].
    + cbn in H. destruct pre as [|? [|? ?]]; try discriminate.
      injection H as _ <-. now split.
    + rewrite send_turn in *. cbn [fst snd] in *.
      destruct pre as [|e1 [|e2 [|e3 pre]]]; cbn [app] in H.
      * injection H as <- _. discriminate.
      * injection H as _ <- _. discriminate.
      * injection H as _ _ <- _. discriminate.
      * injection H as _ _ _ H. now apply (IH pre).
    + cbn in H.
      destruct pre as [|e1 [|e2 [|e3 pre]]]; cbn [app] in H.
      * injection H as <- _. discriminate.
      * injection H as _ <- _. discriminate.
      * injection H as _ _ _ <-. now split.
      * injection H as _ _ _ H. destruct pre; discriminate.
Qed.

Lemma heartbeat_nothing_after_end_witness :
  fst (send_empty_input [ChildAlive true; ChildExited; ChildAlive true]) =
    [HbPoll true; HbSleep 1; HbWrite [nl] true] ++ HbPoll false :: [] /\
  snd (send_empty_input [ChildAlive true; ChildExited; ChildAlive true])
    = Finished.
Proof.
  split; [reflexivity|].
  exact (proj2 (heartbeat_nothing_after_end
                  [ChildAlive true; ChildExited; ChildAlive true]
                  [HbPoll true; HbSleep 1; HbWrite [nl] true] []
                  (HbPoll false) eq_refl eq_refl)).
Defined.

End HeartbeatFacts.

(** ** The filters, further *)

Module FilterMore.
Import PyStr PyStrFacts Filters FilterFacts.

Local Open Scope string_scope.
Local Open Scope list_scope.

Lemma py_of_filter_stdout s : py (filter_stdout s) = filtered_output (py s).
Proof. apply list_ascii_of_string_of_list_ascii. Qed.

Lemma py_of_filter_stderr s : py (filter_stderr s) = filtered_stderr (py s).
Proof. apply list_ascii_of_string_of_list_ascii. Qed.

Lemma py_injective s t : py s = py t -> s = t.
Proof.
  intros H. rewrite <- (string_of_list_ascii_of_string s).
  rewrite <- (string_of_list_ascii_of_string t). unfold py in H. now rewrite H.
Qed.

Lemma py_length s : List.length (py s) = String.length s.
Proof.
  unfold py. induction s as [|c s IH]; cbn; [reflexivity | now rewrite IH].
Qed.

Lemma split_app_nl a b : split (a ++ nl :: b) = split a ++ split b.
Proof.
  induction a as [|c a IH].
  - rewrite app_nil_l, split_cons_nl. reflexivity.
  - rewrite <- app_comm_cons. destruct (Ascii.eqb c nl) eqn:E.
    + apply eqb_nl_true in E. subst c.
      now rewrite !split_cons_nl, IH.
    + apply eqb_nl_false in E.
      destruct (split_cons_other c a E) as (l & ls & Ha & Hc).
      destruct (split_cons_other c (a ++ nl :: b) E) as (l' & ls' & Ha' & Hc').
      rewrite Hc, Hc'. rewrite IH, Ha in Ha'.
      rewrite <- app_comm_cons in Ha'. now injection Ha' as <- <-.
Qed.

(** X8.  Whether a line is kept does not depend on the lines around it:
    the kept lines of two texts joined by a newline are the kept lines of
    the first followed by those of the second, on both streams. *)
Theorem kept_lines_of_chunks (a b : text) :
  filtered_stdout (a ++ nl :: b) = filtered_stdout a ++ filtered_stdout b /\
  filtered_errors (a ++ nl :: b) = filtered_errors a ++ filtered_errors b.
Proof.
  unfold filtered_stdout, filtered_errors.
  rewrite !filter_loop_filter, split_app_nl. split; apply filter_app.
Qed.

Lemma strip_length u : List.length (strip u) <= List.length u.
Proof.
  destruct (strip_decomp u) as (a & b & H & _).
  rewrite H at 2. rewrite !length_app. lia.
Qed.

Lemma join_length_cons l r :
  List.length (join (l :: r)) =
  List.length l + match r with [] => 0 | _ :: _ => S (List.length (join r)) end.
Proof.
  destruct r as [|l1 r]; [cbn [join]; lia|].
  rewrite join_cons by discriminate. rewrite length_app. reflexivity.
Qed.

Lemma join_filter_length (f : text -> bool) ls :
  List.length (join (filter f ls)) <= List.length (join ls).
Proof.
  induction ls as [|l r IH]; [reflexivity|].
  rewrite (join_length_cons l r). cbn [filter]. destruct (f l).
  - rewrite join_length_cons.
    destruct r as [|l1 r]; [cbn [filter]; lia|].
    destruct (filter f (l1 :: r)); lia.
  - destruct r as [|l1 r]; [cbn; lia | lia].
Qed.

(** X9.  Neither filter ever makes a text longer. *)
Theorem filters_never_lengthen (captured : string) :
  String.length (filter_stdout captured) <= String.length captured /\
  String.length (filter_stderr captured) <= String.length captured.
Proof.
  rewrite <- !py_length, py_of_filter_stdout, py_of_filter_stderr.
  unfold filtered_output, filtered_stderr, filtered_stdout, filtered_errors.
  rewrite !filter_loop_filter.
  split.
  - etransitivity; [apply strip_length|].
    etransitivity; [apply join_filter_length|]. now rewrite join_split.
  - etransitivity; [apply strip_length|].
    etransitivity; [apply join_filter_length|]. now rewrite join_split.
Qed.

(** X10.  The texts the stdout filter leaves as they are are exactly the
    texts without leading or trailing whitespace in which none of its
    phrases occurs. *)
Theorem stdout_filter_fixed_points (captured : string) :
  filter_stdout captured = captured <->
  strip (py captured) = py captured /\
  forall p, In p stdout_phrases -> ~ occurs_in p (py captured).
Proof.
  split.
  - intros H. apply (f_equal py) in H. rewrite py_of_filter_stdout in H.
    split.
    + rewrite <- H at 1. unfold filtered_output. rewrite strip_idem. exact H.
    + intros p Hp. rewrite <- H.
      apply (phrase_free_text _ stdout_phrases_plain);
        [apply filtered_lines_no_nl | apply filtered_stdout_free | exact Hp].
  - intros [Hs Hfree]. apply py_injective. rewrite py_of_filter_stdout.
    unfold filtered_output, filtered_stdout.
    apply refilter_fixed; [|exact Hs].
    apply Forall_forall. intros l Hl. unfold stdout_keep.
    apply negb_true_iff, any_phrase_in_false. intros p Hp Hocc.
    apply (Hfree p Hp).
    eapply occurs_in_trans; [exact Hocc | now apply split_occurs].
Qed.

Lemma blank_dec l : blank l \/ ~ blank l.
Proof.
  destruct (strip l) eqn:E.
  - left. now apply strip_nil.
  - right. intros H. apply strip_nil in H. congruence.
Qed.

Lemma string_of_list_nil l : string_of_list_ascii l = EmptyString <-> l = [].
Proof. destruct l; cbn; split; congruence. Qed.

(** X11.  The stderr filter yields the empty text exactly when every line
    of the captured text holds one of its phrases or is blank; a single
    line of another kind is enough for something to be reported. *)
Theorem stderr_all_noise (captured : string) :
  filter_stderr captured = EmptyString <->
  Forall (fun line => any_phrase_in stderr_phrases line = true \/ blank line)
         (split (py captured)).
Proof.
  unfold filter_stderr. rewrite string_of_list_nil.
  unfold filtered_stderr, filtered_errors. rewrite filter_loop_filter.
  rewrite strip_nil. split.
  - intros Hblank. apply Forall_forall. intros l Hl.
    destruct (any_phrase_in stderr_phrases l) eqn:Ea; [now left | right].
    destruct (blank_dec l) as [Hb|Hb]; [assumption | exfalso].
    assert (Hk : In l (filter stderr_keep (split (py captured)))).
    { apply filter_In. split; [assumption|]. now apply stderr_keep_spec. }
    apply in_join_occurs in Hk as (a & b & Hj). rewrite Hj in Hblank.
    apply blank_app in Hblank as [_ Hblank].
    now apply blank_app in Hblank as [Hblank _].
  - intros Hall.
    assert (E : filter stderr_keep (split (py captured)) = []).
    { destruct (filter stderr_keep (split (py captured))) as [|l r] eqn:E;
        [reflexivity | exfalso].
      assert (Hl : In l (filter stderr_keep (split (py captured))))
        by (rewrite E; now left).
      apply filter_In in Hl as [Hl Hk]. apply stderr_keep_spec in Hk as [Hf Hnb].
      destruct (proj1 (Forall_forall _ _) Hall l Hl); [congruence | contradiction]. }
    rewrite E. constructor.
Qed.

(** X12.  None of the nine phrases of the stderr list occurs anywhere in
    the text the stderr filter yields. *)
Theorem stderr_phrases_never_survive (captured : string) (p : text) :
  In p stderr_phrases -> ~ occurs_in p (py (filter_stderr captured)).
Proof.
  intros Hp. rewrite py_of_filter_stderr.
  apply (phrase_free_text _ stderr_phrases_plain);
    [apply filtered_lines_no_nl | | exact Hp].
  eapply Forall_impl; [|apply filtered_errors_kept]. now intros a [? _].
Qed.

(** X21.  A non-empty text yielded by the stderr filter has no blank line:
    no empty line and no line of whitespace only, at the ends or inside. *)
Theorem reported_stderr_has_no_blank_line (captured : string) :
  filter_stderr captured <> EmptyString ->
  Forall (fun line => ~ blank line) (split (py (filter_stderr captured))).
Proof.
  intros Hne. rewrite py_of_filter_stderr.
  assert (Hne' : filtered_stderr (py captured) <> []).
  { intros H. apply Hne. unfold filter_stderr. now rewrite H. }
  unfold filtered_stderr in *.
  pose proof (filtered_errors_kept (py captured)) as Hkept.
  pose proof (filtered_lines_no_nl stderr_keep (py captured)) as Hnl.
  fold (filtered_errors (py captured)) in Hnl.
  destruct (filtered_errors (py captured)) as [|l1 rest]; [now elim Hne'|].
  assert (Hnb : Forall (fun x => ~ blank x) (l1 :: rest))
    by (eapply Forall_impl; [|exact Hkept]; now intros a [_ ?]).
  inversion Hnb as [|? ? Hl1 Hrest]; subst.
  inversion Hnl as [|? ? Hnl1 Hnlr]; subst.
  destruct (lstrip_decomp l1) as (pre & Hpre & Hblank).
  unfold strip. rewrite lstrip_join by assumption.
  destruct (rstrip_join (lstrip l1 :: rest)) as (ls' & Hr & Hls' & Hnb' & Hocc).
  { discriminate. }
  { constructor; [|assumption]. intros Hb. apply Hl1.
    rewrite Hpre. apply blank_app. now split. }
  rewrite Hr, split_join; [assumption | assumption |].
  eapply Forall_impl; [|exact Hocc].
  intros a (x & Hx & Hax). apply (no_nl_occurs a x Hax).
  destruct Hx as [<-|Hx].
  - intros Hin. apply Hnl1. rewrite Hpre. apply in_or_app. now right.
  - now apply (proj1 (Forall_forall _ _) Hnlr x).
Qed.

Lemma reported_stderr_has_no_blank_line_witness :
  filter_stderr Scenarios.mixed_output <> EmptyString /\
  Forall (fun line => ~ blank line)
         (split (py (filter_stderr Scenarios.mixed_output))).
Proof.
  assert (H : filter_stderr Scenarios.mixed_output <> EmptyString)
    by (vm_compute; discriminate).
  split; [exact H|].
  exact (reported_stderr_has_no_blank_line Scenarios.mixed_output H).
Defined.

Lemma stderr_phrases_never_survive_witness :
  In (py "System.Threading") stderr_phrases /\
  ~ occurs_in (py "System.Threading") (py (filter_stderr Samples.console_trace)).
Proof.
  assert (H : In (py "System.Threading") stderr_phrases) by (cbn; auto 10).
  split; [exact H|].
  exact (stderr_phrases_never_survive Samples.console_trace
           (py "System.Threading") H).
Defined.

Lemma stderr_all_noise_witness :
  filter_stderr Samples.console_trace = EmptyString.
Proof.
  apply (proj2 (stderr_all_noise Samples.console_trace)).
  vm_compute.
  repeat (constructor; [(left; reflexivity) || (right; constructor)|]).
  constructor.
Defined.

Lemma stdout_filter_fixed_points_witness :
  filter_stdout "3 files done" = "3 files done".
Proof.
  apply (proj2 (stdout_filter_fixed_points "3 files done")).
  split; [vm_compute; reflexivity|].
  intros p Hp. apply contains_false.
  cbn in Hp. destruct Hp as [<-|[<-|[]]]; vm_compute; reflexivity.
Defined.

End FilterMore.

(** ** The supervisor, further *)

Module SupervisorMore.
Import Filters Supervisor SupervisorFacts Entry.

Local Open Scope string_scope.
Local Open Scope Z_scope.
Local Open Scope list_scope.

Lemma success_inferable_dec w args :
  success_inferable w args \/ ~ success_inferable w args.
Proof.
  destruct (existsb (String.eqb "translate") args) eqn:Hkey.
  2:{ right. intros (H & _). apply keyword_test in H. congruence. }
  apply keyword_test in Hkey.
  destruct (3 <=? List.length args)%nat eqn:Hlen.
  2:{ right. intros (_ & H & _). apply Nat.leb_le in H. congruence. }
  apply Nat.leb_le in Hlen.
  destruct (nth_error args 2) as [d|] eqn:Hd.
  2:{ right. intros (_ & _ & d & es & H & _). congruence. }
  destruct (fs w d) as [| |[|e es]|] eqn:Hfs;
    try (right; intros (_ & _ & d' & es' & H1 & H2 & H3); congruence).
  left. split; [assumption|]. split; [assumption|].
  exists d, (e :: es). split; [assumption|]. split; [assumption | discriminate].
Qed.

Lemma run_doctr_inaccessible w args :
  fs w (cli_path w) = Inaccessible ->
  run_doctr w args = ([], Raises (Error "Permission denied")).
Proof.
  intros H. unfold run_doctr, path_exists. now rewrite H.
Qed.

Lemma run_doctr_no_pty w args message :
  executable_exists w -> openpty_error w = Some message ->
  run_doctr w args =
    ([EvOpenPty; EvPrint to_stderr (failure_message (Error message))],
     Returns 1).
Proof.
  intros Hexe H. unfold run_doctr. rewrite (path_exists_found _ _ Hexe).
  unfold openpty. now rewrite H.
Qed.

Lemma run_doctr_no_child w args message :
  executable_exists w -> openpty_error w = None ->
  popen_error w = Some message ->
  run_doctr w args =
    ([EvOpenPty; EvPopen (cli_path w :: args);
      EvPrint to_stderr (failure_message (Error message))],
     Returns 1).
Proof.
  intros Hexe Hpty H. unfold run_doctr. rewrite (path_exists_found _ _ Hexe).
  unfold openpty, popen. now rewrite Hpty, H.
Qed.

(** The ways an invocation can go. *)
Lemma world_cases w :
  fs w (cli_path w) = Missing \/
  fs w (cli_path w) = Inaccessible \/
  (executable_exists w /\ exists m, openpty_error w = Some m) \/
  (executable_exists w /\ openpty_error w = None /\
   exists m, popen_error w = Some m) \/
  (starts_child w /\ exists out err rc, child w = Exits out err rc) \/
  (starts_child w /\ exists term alive kill drained,
     child w = Overruns term alive kill drained).
Proof.
  destruct (fs w (cli_path w)) as [| |entries|] eqn:Hfs; auto.
  - assert (Hexe : executable_exists w) by now left.
    destruct (openpty_error w) as [m|] eqn:Hpty; [right; right; left; eauto|].
    destruct (popen_error w) as [m|] eqn:Hpopen;
      [right; right; right; left; eauto|].
    destruct (child w) as [out err rc|term alive kill drained] eqn:Hchild.
    + do 4 right. left. repeat split; eauto.
    + do 5 right. repeat split; eauto 6.
  - assert (Hexe : executable_exists w) by (right; eauto).
    destruct (openpty_error w) as [m|] eqn:Hpty; [right; right; left; eauto|].
    destruct (popen_error w) as [m|] eqn:Hpopen;
      [right; right; right; left; eauto|].
    destruct (child w) as [out err rc|term alive kill drained] eqn:Hchild.
    + do 4 right. left. repeat split; eauto.
    + do 5 right. repeat split; eauto 6.
Qed.

Lemma executable_not_missing w :
  executable_exists w ->
  fs w (cli_path w) <> Missing /\ fs w (cli_path w) <> Inaccessible.
Proof. intros [H|[entries H]]; rewrite H; split; discriminate. Qed.

Lemma filter_of_empty :
  filter_stdout EmptyString = EmptyString /\
  filter_stderr EmptyString = EmptyString.
Proof. split; reflexivity. Qed.

(** What the stream output prints. *)
Lemma output_results_trace out err :
  fst (output_results out err) =
    map (EvPrint to_stdout) (shown (filter_stdout out))
    ++ map (EvPrint to_stderr) (shown (filter_stderr err)).
Proof.
  unfold output_results, shown.
  destruct out as [|c out]; destruct err as [|c' err]; cbn [str_truthy].
  - reflexivity.
  - cbn -[filter_stderr]. destruct (str_truthy (filter_stderr (String c' err)));
      reflexivity.
  - cbn -[filter_stdout]. destruct (str_truthy (filter_stdout (String c out)));
      reflexivity.
  - cbn -[filter_stdout filter_stderr].
    destruct (str_truthy (filter_stdout (String c out))),
             (str_truthy (filter_stderr (String c' err))); reflexivity.
Qed.

Lemma infer_success_trace w args rc :
  fst (infer_success w args rc) = [] \/
  fst (infer_success w args rc) = [EvPrint to_stdout inferred_message].
Proof.
  destruct (Z.eq_dec rc 0) as [Hz|Hnz].
  - left. rewrite infer_success_no; [reflexivity | now left].
  - destruct (success_inferable_dec w args) as [H|H].
    + right. now rewrite infer_success_yes.
    + left. rewrite infer_success_no; [reflexivity | now right].
Qed.

Lemma prints_close_nothing t :
  forallb is_print t = true ->
  closed t = [] /\ spawned t = [] /\ ~ In EvThreadStart t.
Proof.
  induction t as [|e t IH]; cbn [forallb]; [intros _; now repeat split|].
  intros H. apply andb_true_iff in H as [He Ht].
  destruct (IH Ht) as (H1 & H2 & H3).
  destruct e; try discriminate. cbn [closed spawned flat_map app].
  repeat split; try assumption.
  intros [E|E]; [discriminate | contradiction].
Qed.

Lemma output_results_prints out err :
  forallb is_print (fst (output_results out err)) = true.
Proof.
  rewrite output_results_trace. unfold shown.
  destruct (str_truthy (filter_stdout out)),
           (str_truthy (filter_stderr err)); reflexivity.
Qed.

Lemma infer_success_prints w args rc :
  forallb is_print (fst (infer_success w args rc)) = true.
Proof.
  destruct (infer_success_trace w args rc) as [H|H]; now rewrite H.
Qed.

Lemma closed_app t1 t2 : closed (t1 ++ t2) = closed t1 ++ closed t2.
Proof. apply flat_map_app. Qed.

Lemma spawned_app t1 t2 : spawned (t1 ++ t2) = spawned t1 ++ spawned t2.
Proof. apply flat_map_app. Qed.

Lemma printed_split to t1 t2 :
  printed to (t1 ++ t2) = printed to t1 ++ printed to t2.
Proof. apply flat_map_app. Qed.

Lemma printed_map_same to l : printed to (map (EvPrint to) l) = l.
Proof.
  unfold printed. induction l as [|x l IH]; [reflexivity|].
  destruct to; cbn [map flat_map app] in *; now rewrite IH.
Qed.

Lemma printed_map_other to to' l :
  to <> to' -> printed to (map (EvPrint to') l) = [].
Proof.
  intros H. unfold printed. induction l as [|x l IH]; [reflexivity|].
  destruct to, to'; try congruence; cbn [map flat_map app] in *;
    now rewrite IH.
Qed.



(** X14.  The supervisor returns 0 in two situations only: the child was
    started and exited with 0, or it exited with another code and the
    success-inference conditions hold. *)
Theorem success_reported_only_when (w : world) (args : list string) :
  result_of w args = ExitCode 0 <->
  starts_child w /\
  exists out err rc,
    child w = Exits out err rc /\ (rc = 0 \/ success_inferable w args).
Proof.
  unfold result_of. split.
  - intros H.
    destruct (world_cases w)
      as [Hc|[Hc|[[Hexe [m Hm]]|[(Hexe & Hpty & m & Hm)|
           [[Hs (out & err & rc & Hc)]|[Hs (t & a & k & d & Hc)]]]]]].
    + rewrite (run_doctr_missing w args Hc) in H. discriminate.
    + rewrite (run_doctr_inaccessible w args Hc) in H. discriminate.
    + rewrite (run_doctr_no_pty w args m Hexe Hm) in H. discriminate.
    + rewrite (run_doctr_no_child w args m Hexe Hpty Hm) in H. discriminate.
    + split; [assumption|]. exists out, err, rc. split; [assumption|].
      destruct (Z.eq_dec rc 0) as [Hz|Hnz]; [now left | right].
      destruct (success_inferable_dec w args) as [Hi|Hi]; [assumption|].
      rewrite (run_doctr_exits w args out err rc Hs Hc) in H.
      rewrite (infer_success_no w args rc) in H by now right.
      cbn in H. congruence.
    + rewrite (run_doctr_overruns w args t a k d Hs Hc) in H. cbn [snd] in H.
      destruct d; discriminate.
  - intros (Hs & out & err & rc & Hc & Hwhy).
    rewrite (run_doctr_exits w args out err rc Hs Hc).
    destruct (Z.eq_dec rc 0) as [Hz|Hnz].
    + subst rc. rewrite (infer_success_no w args 0) by now left. reflexivity.
    + destruct Hwhy as [Hz|Hi]; [contradiction|].
      now rewrite (infer_success_yes w args rc Hnz Hi).
Qed.

Lemma success_reported_only_when_witness :
  result_of (Scenarios.scenario Missing (Scenarios.quiet_exit 0)) [] = ExitCode 0.
Proof.
  apply (proj2 (success_reported_only_when
                  (Scenarios.scenario Missing (Scenarios.quiet_exit 0)) [])).
  split.
  - repeat split. left. reflexivity.
  - exists EmptyString, EmptyString, 0. split; [reflexivity | now left].
Defined.

(** X15.  After a child that exited within the ceiling, stderr shows the
    filtered child stderr as one print, or nothing if that is empty; stdout
    shows the filtered child stdout likewise, followed by the inference
    message exactly when success is inferred. *)
Theorem streams_after_exit
    (w : world) (args : list string) (out err : string) (rc : Z) :
  starts_child w ->
  child w = Exits out err rc ->
  printed to_stderr (trace_of w args) = shown (filter_stderr err) /\
  (rc = 0 \/ ~ success_inferable w args ->
   printed to_stdout (trace_of w args) = shown (filter_stdout out)) /\
  (rc <> 0 -> success_inferable w args ->
   printed to_stdout (trace_of w args) =
     shown (filter_stdout out) ++ [inferred_message]).
Proof.
  intros Hs Hc. unfold trace_of.
  rewrite (run_doctr_exits w args out err rc Hs Hc). cbn [fst].
  rewrite !printed_split, output_results_trace, !printed_split.
  rewrite !printed_map_same, !printed_map_other by discriminate.
  cbn [launch_events printed flat_map app]. rewrite !app_nil_r.
  split; [|split].
  - destruct (infer_success_trace w args rc) as [H|H]; rewrite H; cbn;
      now rewrite ?app_nil_r.
  - intros H. rewrite (infer_success_no w args rc H). cbn.
    now rewrite app_nil_r.
  - intros Hnz Hi. now rewrite (infer_success_yes w args rc Hnz Hi).
Qed.

Lemma streams_after_exit_witness :
  printed to_stderr
    (trace_of (Scenarios.scenario Missing
                 (Exits "3 files done" Samples.console_trace 0)) [])
    = [] /\
  printed to_stdout
    (trace_of (Scenarios.scenario Missing
                 (Exits "3 files done" Samples.console_trace 0)) [])
    = ["3 files done"].
Proof.
  destruct (streams_after_exit
              (Scenarios.scenario Missing
                 (Exits "3 files done" Samples.console_trace 0)) []
              "3 files done" Samples.console_trace 0) as (H1 & H2 & _).
  - repeat split. left. reflexivity.
  - reflexivity.
  - split; [exact H1|]. apply H2. now left.
Defined.

(** X16.  When the pty cannot be opened the supervisor reports the cause
    on stderr and returns 1, without having started a process. *)
Theorem pty_failure_reported
    (w : world) (args : list string) (message : string) :
  executable_exists w ->
  openpty_error w = Some message ->
  result_of w args = ExitCode 1 /\
  trace_of w args =
    [EvOpenPty;
     EvPrint to_stderr ("Error running doctr: " ++ message)%string].
Proof.
  intros Hexe H. unfold result_of, trace_of.
  now rewrite (run_doctr_no_pty w args message Hexe H).
Qed.

Lemma pty_failure_reported_witness :
  result_of (Samples.no_pty "out of pty devices") [] = ExitCode 1.
Proof.
  apply (pty_failure_reported (Samples.no_pty "out of pty devices") []
           "out of pty devices").
  - left. reflexivity.
  - reflexivity.
Defined.

(** X17.  When the child cannot be created the supervisor reports the
    cause on stderr and returns 1; it starts no thread, and it closes
    neither descriptor of the pty it had opened. *)
Theorem launch_failure_leaves_pty_open
    (w : world) (args : list string) (message : string) :
  executable_exists w ->
  openpty_error w = None ->
  popen_error w = Some message ->
  result_of w args = ExitCode 1 /\
  printed to_stderr (trace_of w args) =
    [("Error running doctr: " ++ message)%string] /\
  In EvOpenPty (trace_of w args) /\
  closed (trace_of w args) = [] /\
  ~ In EvThreadStart (trace_of w args).
Proof.
  intros Hexe Hpty H. unfold result_of, trace_of.
  rewrite (run_doctr_no_child w args message Hexe Hpty H).
  cbn [fst snd outcome_of]. repeat split.
  - now left.
  - intros [E|[E|[E|[]]]]; discriminate.
Qed.

Lemma launch_failure_leaves_pty_open_witness :
  result_of (Samples.no_child "Exec format error") [] = ExitCode 1 /\
  closed (trace_of (Samples.no_child "Exec format error") []) = [].
Proof.
  destruct (launch_failure_leaves_pty_open
              (Samples.no_child "Exec format error") [] "Exec format error")
    as (H1 & _ & _ & H2 & _).
  - left. reflexivity.
  - reflexivity.
  - reflexivity.
  - exact (conj H1 H2).
Defined.

(** X18.  Whenever the child was started and [run_doctr] returns, it has
    closed the slave descriptor and then the master descriptor, each
    once. *)
Theorem descriptors_closed_on_return
    (w : world) (args : list string) (code : Z) :
  starts_child w ->
  result_of w args = ExitCode code ->
  closed (trace_of w args) = [slave_fd; master_fd].
Proof.
  intros Hs. unfold result_of, trace_of.
  destruct (child w) as [out err rc|term alive kill drained] eqn:Hc.
  - intros _. rewrite (run_doctr_exits w args out err rc Hs Hc). cbn [fst].
    rewrite !closed_app.
    destruct (prints_close_nothing _ (output_results_prints out err))
      as (-> & _).
    destruct (prints_close_nothing _ (infer_success_prints w args rc))
      as (-> & _).
    reflexivity.
  - rewrite (run_doctr_overruns w args _ _ _ _ Hs Hc). cbn [fst snd].
    destruct drained as [d|]; [intros _ | discriminate].
    rewrite !closed_app.
    assert (He : closed (escalation_events term alive kill) = [])
      by (destruct term, alive, kill; reflexivity).
    rewrite He. reflexivity.
Qed.

Lemma descriptors_closed_on_return_witness :
  closed (trace_of (Scenarios.scenario Missing Scenarios.stuck_child)
            Scenarios.translate_args) = [slave_fd; master_fd].
Proof.
  apply (descriptors_closed_on_return
           (Scenarios.scenario Missing Scenarios.stuck_child)
           Scenarios.translate_args 1).
  - repeat split. left. reflexivity.
  - reflexivity.
Defined.

Lemma escalation_spawns_nothing term alive kill :
  spawned (escalation_events term alive kill) = [] /\
  ~ In EvThreadStart (escalation_events term alive kill).
Proof.
  destruct term, alive, kill; (split; [reflexivity|]); cbn;
    intuition discriminate.
Qed.

(** X19.  The script starts at most one process.  When the executable is
    there and the pty opens, that process gets the executable's path
    followed by the command-line arguments after the script's own name,
    unchanged and in order; otherwise none is started. *)
Theorem main_forwards_arguments (w : world) (argv : list string) :
  (executable_exists w -> openpty_error w = None ->
   spawned (fst (main w argv)) = [cli_path w :: tl argv]) /\
  (~ executable_exists w \/ openpty_error w <> None ->
   spawned (fst (main w argv)) = []).
Proof.
  unfold main, trace_of. cbn [fst].
  destruct (world_cases w)
    as [Hc|[Hc|[[Hexe [m Hm]]|[(Hexe & Hpty & m & Hm)|
         [[Hs (out & err & rc & Hc)]|[Hs (t & a & k & d & Hc)]]]]]].
  - rewrite (run_doctr_missing w (tl argv) Hc). split.
    + intros Hexe. apply executable_not_missing in Hexe as [H _]. contradiction.
    + reflexivity.
  - rewrite (run_doctr_inaccessible w (tl argv) Hc). split.
    + intros Hexe. apply executable_not_missing in Hexe as [_ H]. contradiction.
    + reflexivity.
  - rewrite (run_doctr_no_pty w (tl argv) m Hexe Hm). split.
    + congruence.
    + reflexivity.
  - rewrite (run_doctr_no_child w (tl argv) m Hexe Hpty Hm). split.
    + reflexivity.
    + intros [H|H]; contradiction.
  - rewrite (run_doctr_exits w (tl argv) out err rc Hs Hc). cbn [fst].
    rewrite !spawned_app.
    destruct (prints_close_nothing _ (output_results_prints out err))
      as (_ & -> & _).
    destruct (prints_close_nothing _ (infer_success_prints w (tl argv) rc))
      as (_ & -> & _).
    split; [reflexivity|].
    destruct Hs as (Hexe & Hpty & _). intros [H|H]; contradiction.
  - rewrite (run_doctr_overruns w (tl argv) t a k d Hs Hc). cbn [fst].
    rewrite !spawned_app.
    destruct (escalation_spawns_nothing t a k) as [-> _].
    split; [destruct d; reflexivity|].
    destruct Hs as (Hexe & Hpty & _). intros [H|H]; contradiction.
Qed.

Lemma main_forwards_arguments_witness :
  spawned (fst (main (Scenarios.scenario Missing (Scenarios.quiet_exit 0))
                  ["run-doctr.py"; "translate"; "/in"; "/out"]))
  = [[cli_path (Scenarios.scenario Missing (Scenarios.quiet_exit 0));
      "translate"; "/in"; "/out"]].
Proof.
  apply (proj1 (main_forwards_arguments
                  (Scenarios.scenario Missing (Scenarios.quiet_exit 0))
                  ["run-doctr.py"; "translate"; "/in"; "/out"])).
  - left. reflexivity.
  - reflexivity.
Defined.

(** X20.  The heartbeat thread is started only once the child exists:
    a trace that starts the thread begins with the pty, the process, the
    closing of the slave descriptor and the thread start, in this order,
    and starts no second thread. *)
Theorem thread_only_after_child (w : world) (args : list string) :
  In EvThreadStart (trace_of w args) ->
  starts_child w /\
  exists rest,
    trace_of w args = launch_events w args ++ rest /\
    ~ In EvThreadStart rest.
Proof.
  unfold trace_of.
  destruct (world_cases w)
    as [Hc|[Hc|[[Hexe [m Hm]]|[(Hexe & Hpty & m & Hm)|
         [[Hs (out & err & rc & Hc)]|[Hs (t & a & k & d & Hc)]]]]]].
  - rewrite (run_doctr_missing w args Hc). cbn. intuition discriminate.
  - rewrite (run_doctr_inaccessible w args Hc). cbn. intuition.
  - rewrite (run_doctr_no_pty w args m Hexe Hm). cbn. intuition discriminate.
  - rewrite (run_doctr_no_child w args m Hexe Hpty Hm). cbn.
    intuition discriminate.
  - rewrite (run_doctr_exits w args out err rc Hs Hc). cbn [fst].
    intros _. split; [assumption|]. eexists. split; [reflexivity|].
    intros H. apply in_app_or in H as [H|H].
    { cbn in H. intuition discriminate. }
    apply in_app_or in H as [H|H].
    + now apply (prints_close_nothing _ (output_results_prints out err)).
    + now apply (prints_close_nothing _ (infer_success_prints w args rc)).
  - rewrite (run_doctr_overruns w args t a k d Hs Hc). cbn [fst].
    intros _. split; [assumption|]. eexists. split; [reflexivity|].
    intros H. apply in_app_or in H as [H|H].
    { cbn in H. intuition discriminate. }
    apply in_app_or in H as [H|H].
    + now apply (escalation_spawns_nothing t a k).
    + destruct d; cbn in H; intuition discriminate.
Qed.

Lemma thread_only_after_child_witness :
  starts_child (Scenarios.scenario Missing (Scenarios.quiet_exit 0)).
Proof.
  apply (thread_only_after_child
           (Scenarios.scenario Missing (Scenarios.quiet_exit 0)) []).
  cbn. auto.
Defined.

End SupervisorMore.
